(** * crill::seqlock_object — a single-writer seqlock over a trivially
      copyable value (include/crill/seqlock_object.h)

    The object has two members: the atomic sequence counter [seq] and the
    byte storage [atomic_storage.data].  Every member function is a short
    sequence of atomic accesses to these two members.  The functions are
    embedded as programs over those atomic accesses ([prog]); a program is
    run either alone ([run]), or with other threads touching the object
    between its accesses ([run_in]), or as one of two threads of a
    scheduled system ([sys_step]).

    Memory model: the accesses of all threads are interleaved in one total
    order (sequential consistency).  The [std::memory_order] arguments of
    the source are kept in the programs and in the traces, but the
    semantics does not weaken the interleaving according to them.

    Undefined behaviour: [atomic_storage_t::memcpy_out] is declared to
    return a [T] and has no [return] statement, so control flows off the end
    of a value-returning function in every call of it, which the language
    leaves undefined.  A program records this as the step [FlowOffEnd], and
    the run of a program that passes it is marked as not [defined]: what
    such a run goes on to do and to hand back is what a build does that
    carries on as if the function had returned, and is not promised by the
    source. *)

From Stdlib Require Import ZArith Lia List Sorted.
From stdpp Require Import base tactics option list sorting.

Open Scope Z_scope.

(** ** Data model *)

(** [uint8_t] / [char]: one byte of an object representation. *)
Abbreviation byte := Byte.byte.

#[global] Instance byte_inhabited : Inhabited byte := populate Byte.x00.

(** A value of the template parameter [T] is its object representation:
    [sizeof(T)] bytes ([T] is trivially copyable, line 33). *)
Abbreviation T := (list byte).

(** [std::size_t]: 64 bits wide (LP64); unsigned arithmetic wraps. *)
Definition size_t_bits : Z := 64.
Definition SIZE_MAX : Z := 2 ^ size_t_bits - 1.
Definition wrap (z : Z) : Z := z mod 2 ^ size_t_bits.

Inductive memory_order : Set :=
| memory_order_relaxed
| memory_order_acquire
| memory_order_release.

(** The two data members of [seqlock_object<T>]. *)
Record seqlock_object : Type := mk_seqlock_object {
  seq : Z;              (* std::atomic<std::size_t> seq *)
  data : list byte      (* atomic_storage.data[sizeof(T)] *)
}.

Definition set_seq (v : Z) (m : seqlock_object) : seqlock_object :=
  {| seq := v; data := data m |}.
Definition set_data (i : nat) (b : byte) (m : seqlock_object) : seqlock_object :=
  {| seq := seq m; data := <[i:=b]> (data m) |}.

(** ** Programs over the atomic accesses *)

Inductive prog (A : Type) : Type :=
| Ret (a : A)
| SeqLoad (mo : memory_order) (k : Z -> prog A)
| SeqStore (v : Z) (mo : memory_order) (k : prog A)
| DataLoad (i : nat) (mo : memory_order) (k : byte -> prog A)
| DataStore (i : nat) (b : byte) (mo : memory_order) (k : prog A)
| Fence (mo : memory_order) (k : prog A)
| FlowOffEnd (k : prog A).
Arguments Ret {A} a.
Arguments SeqLoad {A} mo k.
Arguments SeqStore {A} v mo k.
Arguments DataLoad {A} i mo k.
Arguments DataStore {A} i b mo k.
Arguments Fence {A} mo k.
Arguments FlowOffEnd {A} k.

Fixpoint bind {A B : Type} (p : prog A) (f : A -> prog B) : prog B :=
  match p with
  | Ret a => f a
  | SeqLoad mo k => SeqLoad mo (fun v => bind (k v) f)
  | SeqStore v mo k => SeqStore v mo (bind k f)
  | DataLoad i mo k => DataLoad i mo (fun b => bind (k b) f)
  | DataStore i b mo k => DataStore i b mo (bind k f)
  | Fence mo k => Fence mo (bind k f)
  | FlowOffEnd k => FlowOffEnd (bind k f)
  end.

Declare Scope prog_scope.
Delimit Scope prog_scope with prog.
Notation "x <- p ;; q" := (bind p (fun x => q))
  (at level 20, p at level 99, q at level 200, only parsing) : prog_scope.
Notation "p ;; q" := (bind p (fun _ => q))
  (at level 100, q at level 200, only parsing, right associativity)
  : prog_scope.
Open Scope prog_scope.

(** [seq.load(mo)], [seq.store(v, mo)], [data[i].load(mo)],
    [data[i].store(b, mo)], [std::atomic_thread_fence(mo)]. *)
Definition seq_load (mo : memory_order) : prog Z := SeqLoad mo Ret.
Definition seq_store (v : Z) (mo : memory_order) : prog unit :=
  SeqStore v mo (Ret tt).
Definition data_load (i : nat) (mo : memory_order) : prog byte :=
  DataLoad i mo Ret.
Definition data_store (i : nat) (b : byte) (mo : memory_order) : prog unit :=
  DataStore i b mo (Ret tt).
Definition atomic_thread_fence (mo : memory_order) : prog unit :=
  Fence mo (Ret tt).

(** Control reaches the closing brace of a function whose return type is
    not [void] without having met a [return] statement. *)
Definition flows_off_end : prog unit := FlowOffEnd (Ret tt).

(** [for (std::size_t i = first; i < first + count; ++i) s = body i s]. *)
Fixpoint for_range {S : Type} (first count : nat)
    (body : nat -> S -> prog S) (s : S) : prog S :=
  match count with
  | O => Ret s
  | Datatypes.S count' =>
      s' <- body first s ;; for_range (Datatypes.S first) count' body s'
  end.

(** ** Execution of one program *)

Inductive event : Type :=
| EvSeqLoad (mo : memory_order) (v : Z)
| EvSeqStore (mo : memory_order) (v : Z)
| EvDataLoad (mo : memory_order) (i : nat) (b : byte)
| EvDataStore (mo : memory_order) (i : nat) (b : byte)
| EvFence (mo : memory_order).

(** One atomic access: the event, the rest of the program, the object
    afterwards.  [data[i]] is only ever accessed with [i < sizeof(T)], the
    length of the array; the total lookup never uses its default there.
    Flowing off the end of a function is no access: the step is that of the
    access which a build that carries on makes next. *)
Fixpoint exec1 {A : Type} (p : prog A) (m : seqlock_object)
    : option (event * prog A * seqlock_object) :=
  match p with
  | Ret _ => None
  | SeqLoad mo k => Some (EvSeqLoad mo (seq m), k (seq m), m)
  | SeqStore v mo k => Some (EvSeqStore mo v, k, set_seq v m)
  | DataLoad i mo k =>
      Some (EvDataLoad mo i (data m !!! i), k (data m !!! i), m)
  | DataStore i b mo k => Some (EvDataStore mo i b, k, set_data i b m)
  | Fence mo k => Some (EvFence mo, k, m)
  | FlowOffEnd k => exec1 k m
  end.

(** What the other threads do to the object just before this thread's
    [j]-th atomic access. *)
Definition interference : Type := nat -> seqlock_object -> seqlock_object.
Definition alone : interference := fun _ m => m.

(** What a run comes to: the value handed back, the object afterwards, the
    atomic accesses made, and whether the behaviour of the run is defined by
    the language.  Where [defined] is false, the other three are those of a
    build that carries on past the point where the behaviour became
    undefined. *)
Record outcome (A : Type) : Type := mk_outcome {
  result : A;
  final : seqlock_object;
  trace : list event;
  defined : bool
}.
Arguments mk_outcome {A} result final trace defined.
Arguments result {A} o.
Arguments final {A} o.
Arguments trace {A} o.
Arguments defined {A} o.

(** [o] after the access [e]. *)
Definition emit {A : Type} (e : event) (o : outcome A) : outcome A :=
  mk_outcome (result o) (final o) (e :: trace o) (defined o).

(** [o] after a step that the language leaves undefined. *)
Definition undefined {A : Type} (o : outcome A) : outcome A :=
  mk_outcome (result o) (final o) (trace o) false.

(** Runs [p] to its end; [j] numbers the next atomic access. *)
Fixpoint run_in {A : Type} (env : interference) (j : nat) (p : prog A)
    (m : seqlock_object) : outcome A :=
  match p with
  | Ret a => mk_outcome a m [] true
  | SeqLoad mo k =>
      let m1 := env j m in
      emit (EvSeqLoad mo (seq m1)) (run_in env (S j) (k (seq m1)) m1)
  | SeqStore v mo k =>
      let m1 := env j m in
      emit (EvSeqStore mo v) (run_in env (S j) k (set_seq v m1))
  | DataLoad i mo k =>
      let m1 := env j m in
      emit (EvDataLoad mo i (data m1 !!! i))
           (run_in env (S j) (k (data m1 !!! i)) m1)
  | DataStore i b mo k =>
      let m1 := env j m in
      emit (EvDataStore mo i b) (run_in env (S j) k (set_data i b m1))
  | Fence mo k =>
      let m1 := env j m in
      emit (EvFence mo) (run_in env (S j) k m1)
  | FlowOffEnd k => undefined (run_in env j k m)
  end.

(** No concurrent operations. *)
Definition run {A : Type} (p : prog A) (m : seqlock_object) : outcome A :=
  run_in alone 0 p m.

(** ** Observations on traces *)

(** The object as this thread's access number [j + n] finds it, when the
    [n] accesses before it were loads. *)
Fixpoint drift (env : interference) (j n : nat) (m : seqlock_object)
    : seqlock_object :=
  match n with
  | O => env j m
  | S n' => env (j + n)%nat (drift env j n' m)
  end.

(** The bytes read by the byte loads of a trace, in order. *)
Fixpoint loaded (tr : list event) : list byte :=
  match tr with
  | [] => []
  | EvDataLoad _ _ b :: tr' => b :: loaded tr'
  | _ :: tr' => loaded tr'
  end.

(** The number of counter stores in a trace. *)
Fixpoint seq_stores (tr : list event) : nat :=
  match tr with
  | [] => O
  | EvSeqStore _ _ :: tr' => S (seq_stores tr')
  | _ :: tr' => seq_stores tr'
  end.

(** The accesses of a byte-copy loop over [bs] that starts at [first]. *)
Definition load_events (mo : memory_order) (first : nat) (bs : list byte)
    : list event :=
  imap (fun c b => EvDataLoad mo (first + c) b) bs.

Definition store_events (mo : memory_order) (first : nat) (bs : list byte)
    : list event :=
  imap (fun c b => EvDataStore mo (first + c) b) bs.

(** ** The member functions of [seqlock_object<T>] *)

Section seqlock.

(** [sizeof(T)], the build-time macro that selects the byte-copy backend,
    and the value-initialised [T()]. *)
Variable sizeof_T : nat.
Variable CRILL_BYTEWISE_ATOMIC_MEMCPY_AVAILABLE : bool.
Variable T_default : T.

(** Modelled from the spec: [crill::atomic_load_per_byte_memcpy] is declared
    in crill/bytewise_atomic_memcpy.h.  Section 4.2 asks of the bulk copy
    only that each byte's access is a proper atomic operation, the copy need
    not be atomic as a whole: [count] byte loads with the given ordering,
    written to the destination. *)
Definition atomic_load_per_byte_memcpy (dest : T) (count : nat)
    (order : memory_order) : prog T :=
  for_range 0 count
    (fun i dest => b <- data_load i order ;; Ret (<[i:=b]> dest)) dest.

(** Modelled from the spec: [crill::atomic_store_per_byte_memcpy], the
    writer-side mirror (section 4.2): [count] byte stores with the given
    ordering, read from the source. *)
Definition atomic_store_per_byte_memcpy (src : T) (count : nat)
    (order : memory_order) : prog unit :=
  for_range 0 count
    (fun i _ => data_store i (src !!! i) order) tt.

(** [T atomic_storage_t::memcpy_out(T& value_out) const] (lines 90-101):
    the content of [value_out] afterwards.  The function is declared to
    return a [T]; neither branch of its body has a [return] statement, so
    after the copy control flows off the end of the function. *)
Definition memcpy_out (value_out : T) : prog T :=
  if CRILL_BYTEWISE_ATOMIC_MEMCPY_AVAILABLE then
    value_out <- atomic_load_per_byte_memcpy value_out sizeof_T
                   memory_order_acquire ;;
    flows_off_end ;;
    Ret value_out
  else
    bytes_out <- for_range 0 sizeof_T
                   (fun i bytes_out =>
                      b <- data_load i memory_order_relaxed ;;
                      Ret (<[i:=b]> bytes_out)) value_out ;;
    atomic_thread_fence memory_order_acquire ;;
    flows_off_end ;;
    Ret bytes_out.

(** [atomic_storage_t::memcpy_in] (lines 103-114). *)
Definition memcpy_in (value_in : T) : prog unit :=
  if CRILL_BYTEWISE_ATOMIC_MEMCPY_AVAILABLE then
    atomic_store_per_byte_memcpy value_in sizeof_T memory_order_release
  else
    atomic_thread_fence memory_order_release ;;
    for_range 0 sizeof_T
      (fun i _ => data_store i (value_in !!! i) memory_order_relaxed) tt.

(** [bool try_load(T& t)] (lines 62-71): the flag, and [t] afterwards.
    The call of [memcpy_out] (line 68) flows off the end of that function:
    from there on the behaviour of [try_load] is undefined, and the second
    counter load and the comparison are what a build that carries on
    does. *)
Definition try_load (t : T) : prog (bool * T) :=
  seq1 <- seq_load memory_order_acquire ;;
  if negb (seq1 mod 2 =? 0) then Ret (false, t)
  else
    t <- memcpy_out t ;;
    seq2 <- seq_load memory_order_relaxed ;;
    Ret (seq1 =? seq2, t).

(** [void store(T t)] (lines 75-83). *)
Definition store (t : T) : prog unit :=
  old_seq <- seq_load memory_order_relaxed ;;
  seq_store (wrap (old_seq + 1)) memory_order_relaxed ;;
  memcpy_in t ;;
  seq_store (wrap (old_seq + 2)) memory_order_release.

(** [T load()] (lines 52-57): [T t; while (!try_load(t)); return t;].
    [t] is the indeterminate content of the uninitialised local.  The loop
    has no bound in the source; [fuel] bounds the number of attempts here and
    [None] means it was used up.  The result is the value returned and the
    number of calls of [try_load] made.  The behaviour of the call is
    defined as long as that of every call of [try_load] it makes is. *)
Fixpoint load_in (fuel : nat) (env : interference) (j : nat) (t : T)
    (m : seqlock_object) : outcome (option T * nat) :=
  match fuel with
  | O => mk_outcome (None, O) m [] true
  | S fuel' =>
      let o := run_in env j (try_load t) m in
      if fst (result o) then
        mk_outcome (Some (snd (result o)), 1%nat) (final o) (trace o)
                   (defined o)
      else
        let o' := load_in fuel' env (j + length (trace o))
                    (snd (result o)) (final o) in
        mk_outcome (fst (result o'), S (snd (result o'))) (final o')
                   (trace o ++ trace o') (defined o && defined o')
  end.

Definition load (fuel : nat) (t : T) (m : seqlock_object)
    : outcome (option T * nat) :=
  load_in fuel alone 0 t m.

(** The constructors (lines 36-45).  The member initialiser sets [seq = 0];
    the storage starts with whatever bytes it happens to hold. *)
Definition fresh (garbage : list byte) : seqlock_object :=
  {| seq := 0; data := garbage |}.
Definition seqlock_object_default (garbage : list byte) : seqlock_object :=
  final (run (store T_default) (fresh garbage)).
Definition seqlock_object_value (garbage : list byte) (t : T) : seqlock_object :=
  final (run (store t) (fresh garbage)).

(** The accesses of one call of [memcpy_in] and of [memcpy_out]. *)
Definition copy_order_in : memory_order :=
  if CRILL_BYTEWISE_ATOMIC_MEMCPY_AVAILABLE then memory_order_release
  else memory_order_relaxed.
Definition copy_order_out : memory_order :=
  if CRILL_BYTEWISE_ATOMIC_MEMCPY_AVAILABLE then memory_order_acquire
  else memory_order_relaxed.

Definition memcpy_in_events (value_in : T) : list event :=
  (if CRILL_BYTEWISE_ATOMIC_MEMCPY_AVAILABLE then []
   else [EvFence memory_order_release]) ++
  store_events copy_order_in 0
    (map (fun i => value_in !!! i) (List.seq 0 sizeof_T)).

Definition memcpy_out_events (bs : list byte) : list event :=
  load_events copy_order_out 0 bs ++
  (if CRILL_BYTEWISE_ATOMIC_MEMCPY_AVAILABLE then []
   else [EvFence memory_order_acquire]).

(** The number of accesses [try_load] makes before it loads the counter
    the second time. *)
Definition second_load : nat :=
  S sizeof_T + (if CRILL_BYTEWISE_ATOMIC_MEMCPY_AVAILABLE then 0 else 1).

(** ** Sequences of completed operations on one thread *)

Inductive operation : Type :=
| OpStore (t : T)
| OpLoad (fuel : nat) (t : T)
| OpTryLoad (t : T).

Definition operation_wf (o : operation) : Prop :=
  match o with
  | OpStore t | OpLoad _ t | OpTryLoad t => length t = sizeof_T
  end.

Definition apply_operation (m : seqlock_object) (o : operation)
    : seqlock_object :=
  match o with
  | OpStore t => final (run (store t) m)
  | OpLoad fuel t => final (load fuel t m)
  | OpTryLoad t => final (run (try_load t) m)
  end.

Definition after (ops : list operation) (m : seqlock_object) : seqlock_object :=
  foldl apply_operation m ops.

(** The object is not being written and has its declared shape. *)
Definition stable (m : seqlock_object) : Prop :=
  Z.even (seq m) = true /\ length (data m) = sizeof_T.

(** ** One writer thread and one reader thread *)

(** The writer calls [store] on each value of its list in turn; the reader
    calls [load] again and again and keeps what the calls returned.
    [uninit k] is the indeterminate content of the local [T t] of the
    reader's [k]-th call of [load]. *)
Variable uninit : nat -> T.

Record writer : Type := mk_writer {
  w_code : prog unit;        (* rest of the running call of store *)
  w_todo : list T            (* arguments of the calls still to make *)
}.

Record reader : Type := mk_reader {
  r_code : prog (bool * T);  (* rest of the running call of try_load *)
  r_obs : list T             (* values returned by load so far *)
}.

Record system : Type := mk_system {
  obj : seqlock_object;
  wr : writer;
  rd : reader
}.

Inductive thread_id : Set := Writer | Reader.

Definition writer_step (s : system) : option system :=
  match exec1 (w_code (wr s)) (obj s) with
  | Some (_, k, m) => Some (mk_system m (mk_writer k (w_todo (wr s))) (rd s))
  | None =>
      match w_todo (wr s) with
      | t :: todo => Some (mk_system (obj s) (mk_writer (store t) todo) (rd s))
      | [] => None
      end
  end.

(** The loop of [load]: a failed [try_load] is called again on the same
    [t]; a successful one ends the call, and the next call begins. *)
Definition reader_step (s : system) : option system :=
  match r_code (rd s) with
  | Ret (true, t) =>
      let obs := r_obs (rd s) ++ [t] in
      Some (mk_system (obj s) (wr s)
              (mk_reader (try_load (uninit (length obs))) obs))
  | Ret (false, t) =>
      Some (mk_system (obj s) (wr s) (mk_reader (try_load t) (r_obs (rd s))))
  | code =>
      match exec1 code (obj s) with
      | Some (_, k, m) => Some (mk_system m (wr s) (mk_reader k (r_obs (rd s))))
      | None => None
      end
  end.

(** The reader's next step takes it past the end of [memcpy_out]. *)
Definition reader_flows_off (s : system) : bool :=
  match r_code (rd s) with
  | FlowOffEnd _ => true
  | _ => false
  end.

(** A thread that has nothing left to do keeps the state as it is. *)
Definition sys_step (s : system) (who : thread_id) : system :=
  match who with
  | Writer => default s (writer_step s)
  | Reader => default s (reader_step s)
  end.

Definition sys_run (sched : list thread_id) (s : system) : system :=
  foldl sys_step s sched.

(** The object has been constructed with [v0]; no call is running. *)
Definition sys_init (garbage : list byte) (v0 : T) (vals : list T) : system :=
  mk_system (seqlock_object_value garbage v0)
            (mk_writer (Ret tt) vals)
            (mk_reader (try_load (uninit 0)) []).

(** The counter stores that the writer's running call has still to make:
    2 before the first, 1 between the two, 0 after the second. *)
Definition pending_seq_stores (s : system) : nat :=
  seq_stores (trace (run (w_code (wr s)) (obj s))).

(** ** Program points

    The places where a thread can stand inside [store] and [try_load], with
    the values of the locals there, and the rest of the call from each.
    The reader of the two-thread system is that of a build that carries on
    past the end of [memcpy_out]. *)

Inductive wpc : Type :=
| WIdle
| WCall (t : T)
| WStore1 (t : T) (old_seq : Z)
| WFence (t : T) (old_seq : Z)
| WCopy (t : T) (old_seq : Z) (i c : nat).

Inductive rpc : Type :=
| RCall (t : T)
| RCopy (seq1 : Z) (i c : nat) (t : T)
| RLoad2 (seq1 : Z) (t : T)
| RRet (ok : bool) (t : T).

Definition store_tail (old_seq : Z) : unit -> prog unit :=
  fun _ => seq_store (wrap (old_seq + 2)) memory_order_release.

Definition try_load_tail (seq1 : Z) : T -> prog (bool * T) :=
  fun t => seq2 <- seq_load memory_order_relaxed ;; Ret (seq1 =? seq2, t).

Definition wcode (pc : wpc) : prog unit :=
  match pc with
  | WIdle => Ret tt
  | WCall t => store t
  | WStore1 t old_seq =>
      seq_store (wrap (old_seq + 1)) memory_order_relaxed ;;
      memcpy_in t ;;
      seq_store (wrap (old_seq + 2)) memory_order_release
  | WFence t old_seq =>
      bind (atomic_thread_fence memory_order_release ;;
            for_range 0 sizeof_T
              (fun i _ => data_store i (t !!! i) copy_order_in) tt)
           (store_tail old_seq)
  | WCopy t old_seq i c =>
      bind (for_range i c (fun i _ => data_store i (t !!! i) copy_order_in) tt)
           (store_tail old_seq)
  end.

Definition rcode (pc : rpc) : prog (bool * T) :=
  match pc with
  | RCall t => try_load t
  | RCopy seq1 i c t =>
      bind (if CRILL_BYTEWISE_ATOMIC_MEMCPY_AVAILABLE then
              value_out <- for_range i c
                             (fun i d => b <- data_load i memory_order_acquire ;;
                                         Ret (<[i:=b]> d)) t ;;
              flows_off_end ;;
              Ret value_out
            else
              bytes_out <- for_range i c
                             (fun i d => b <- data_load i memory_order_relaxed ;;
                                         Ret (<[i:=b]> d)) t ;;
              atomic_thread_fence memory_order_acquire ;;
              flows_off_end ;;
              Ret bytes_out)
           (try_load_tail seq1)
  | RLoad2 seq1 t => bind (flows_off_end ;; Ret t) (try_load_tail seq1)
  | RRet ok t => Ret (ok, t)
  end.

Record points : Type := mk_points {
  p_obj : seqlock_object;
  p_wpc : wpc;
  p_todo : list T;
  p_rpc : rpc;
  p_obs : list T
}.

Definition at_points (a : points) : system :=
  mk_system (p_obj a)
            (mk_writer (wcode (p_wpc a)) (p_todo a))
            (mk_reader (rcode (p_rpc a)) (p_obs a)).

Definition points_step (a : points) (who : thread_id) : points :=
  let m := p_obj a in
  match who with
  | Writer =>
      match p_wpc a with
      | WIdle =>
          match p_todo a with
          | t :: todo => mk_points m (WCall t) todo (p_rpc a) (p_obs a)
          | [] => a
          end
      | WCall t =>
          mk_points m (WStore1 t (seq m)) (p_todo a) (p_rpc a) (p_obs a)
      | WStore1 t old_seq =>
          mk_points (set_seq (wrap (old_seq + 1)) m)
                    (if CRILL_BYTEWISE_ATOMIC_MEMCPY_AVAILABLE
                     then WCopy t old_seq 0 sizeof_T else WFence t old_seq)
                    (p_todo a) (p_rpc a) (p_obs a)
      | WFence t old_seq =>
          mk_points m (WCopy t old_seq 0 sizeof_T) (p_todo a) (p_rpc a) (p_obs a)
      | WCopy t old_seq i (S c) =>
          mk_points (set_data i (t !!! i) m) (WCopy t old_seq (S i) c)
                    (p_todo a) (p_rpc a) (p_obs a)
      | WCopy t old_seq i O =>
          mk_points (set_seq (wrap (old_seq + 2)) m) WIdle
                    (p_todo a) (p_rpc a) (p_obs a)
      end
  | Reader =>
      match p_rpc a with
      | RCall t =>
          mk_points m (p_wpc a) (p_todo a)
                    (if negb (seq m mod 2 =? 0) then RRet false t
                     else RCopy (seq m) 0 sizeof_T t)
                    (p_obs a)
      | RCopy seq1 i (S c) t =>
          mk_points m (p_wpc a) (p_todo a)
                    (RCopy seq1 (S i) c (<[i:=data m !!! i]> t)) (p_obs a)
      | RCopy seq1 i O t =>
          mk_points m (p_wpc a) (p_todo a)
                    (if CRILL_BYTEWISE_ATOMIC_MEMCPY_AVAILABLE
                     then RRet (seq1 =? seq m) t else RLoad2 seq1 t)
                    (p_obs a)
      | RLoad2 seq1 t =>
          mk_points m (p_wpc a) (p_todo a) (RRet (seq1 =? seq m) t) (p_obs a)
      | RRet true t =>
          mk_points m (p_wpc a) (p_todo a)
                    (RCall (uninit (length (p_obs a ++ [t])))) (p_obs a ++ [t])
      | RRet false t =>
          mk_points m (p_wpc a) (p_todo a) (RCall t) (p_obs a)
      end
  end.

Definition points_run (sched : list thread_id) (a : points) : points :=
  foldl points_step a sched.

Definition points_init (garbage : list byte) (v0 : T) (vals : list T) : points :=
  mk_points (seqlock_object_value garbage v0) WIdle vals (RCall (uninit 0)) [].

(** The number of steps the writer takes for one call of [store]: the
    call, the counter load, the first counter store, the fence of the
    per-byte backend, the byte stores, the second counter store. *)
Definition store_cycle : nat :=
  (3 + (if CRILL_BYTEWISE_ATOMIC_MEMCPY_AVAILABLE then 0 else 1)) +
  (sizeof_T + 1).

(** ** Invariants of the two-thread system *)

(** The counter is odd exactly while the writer stands between the two
    counter stores of a call. *)
Definition parity_inv (a : points) : Prop :=
  let m := p_obj a in
  match p_wpc a with
  | WIdle | WCall _ => Z.even (seq m) = true
  | WStore1 _ old_seq => old_seq = seq m /\ Z.even old_seq = true
  | WFence _ old_seq | WCopy _ old_seq _ _ =>
      Z.even old_seq = true /\ Z.odd (seq m) = true
  end.

(** The counter after the [k]-th call of [store] has returned, the
    constructor's call being number 0. *)
Definition seq_of (k : nat) : Z := wrap (2 * (Z.of_nat k + 1)).

(** [hist] lists the constructor's value and then the writer's values;
    [k] calls of [store] after the constructor's have returned. *)
Definition writer_inv (hist : list T) (k : nat) (a : points) : Prop :=
  let m := p_obj a in
  (k < length hist)%nat /\
  match p_wpc a with
  | WIdle =>
      drop (S k) hist = p_todo a /\ seq m = seq_of k /\ data m = hist !!! k
  | WCall t =>
      drop (S k) hist = t :: p_todo a /\ seq m = seq_of k /\
      data m = hist !!! k
  | WStore1 t old_seq =>
      drop (S k) hist = t :: p_todo a /\ seq m = seq_of k /\
      data m = hist !!! k /\ old_seq = seq_of k
  | WFence t old_seq =>
      drop (S k) hist = t :: p_todo a /\ seq m = seq_of k + 1 /\
      data m = hist !!! k /\ old_seq = seq_of k
  | WCopy t old_seq i c =>
      drop (S k) hist = t :: p_todo a /\ seq m = seq_of k + 1 /\
      data m = take i t ++ drop i (hist !!! k) /\ old_seq = seq_of k /\
      (i + c)%nat = sizeof_T
  end.

(** The values returned so far are [hist] at the indices [js]; [now] is the
    counter. *)
Definition reader_inv (hist : list T) (k : nat) (now : Z) (pc : rpc)
    (js : list nat) : Prop :=
  match pc with
  | RCall t => length t = sizeof_T /\ Forall (fun j' => j' <= k)%nat js
  | RCopy seq1 i c t =>
      exists j, seq1 = seq_of j /\ (j <= k)%nat /\
        Forall (fun j' => j' <= j)%nat js /\
        (i + c)%nat = sizeof_T /\ length t = sizeof_T /\
        (now = seq1 -> take i t = take i (hist !!! j))
  | RLoad2 seq1 t =>
      exists j, seq1 = seq_of j /\ (j <= k)%nat /\
        Forall (fun j' => j' <= j)%nat js /\
        length t = sizeof_T /\
        (now = seq1 -> t = hist !!! j)
  | RRet true t =>
      exists j, (j <= k)%nat /\ Forall (fun j' => j' <= j)%nat js /\
        t = hist !!! j
  | RRet false t => length t = sizeof_T /\ Forall (fun j' => j' <= k)%nat js
  end.

Definition tear_inv (hist : list T) (a : points) : Prop :=
  exists k js,
    writer_inv hist k a /\
    p_obs a = map (fun j => hist !!! j) js /\
    StronglySorted le js /\
    reader_inv hist k (seq (p_obj a)) (p_rpc a) js.

(** ** Further observations *)

(** The number of stores, to the counter or to the storage, in a trace. *)
Fixpoint writes (tr : list event) : nat :=
  match tr with
  | [] => O
  | EvSeqStore _ _ :: tr' | EvDataStore _ _ _ :: tr' => S (writes tr')
  | _ :: tr' => writes tr'
  end.

(** A byte access stays inside [data[sizeof(T)]]. *)
Definition in_bounds (e : event) : Prop :=
  match e with
  | EvDataLoad _ i _ | EvDataStore _ i _ => (i < sizeof_T)%nat
  | _ => True
  end.

(** The number of accesses of one call of [store]. *)
Definition store_accesses : nat :=
  sizeof_T + 3 + (if CRILL_BYTEWISE_ATOMIC_MEMCPY_AVAILABLE then 0 else 1).

(** The argument of the last [store] among [ops], [v] when there is none;
    the number of calls of [store] among [ops]. *)
Definition last_stored (ops : list operation) (v : T) : T :=
  foldl (fun cur o => match o with OpStore t => t | _ => cur end) v ops.

Definition count_stores (ops : list operation) : nat :=
  length (List.filter (fun o => match o with OpStore _ => true | _ => false end)
            ops).

Definition is_writer (who : thread_id) : bool :=
  match who with Writer => true | Reader => false end.

(** The steps of the writer in a schedule. *)
Definition writer_part (sched : list thread_id) : list thread_id :=
  List.filter is_writer sched.

(** What the writer's steps depend on: the object and its own state. *)
Definition writer_view (a : points) : seqlock_object * wpc * list T :=
  (p_obj a, p_wpc a, p_todo a).

(** The counter is where the writer's running call has put it. *)
Definition counter_inv (a : points) : Prop :=
  match p_wpc a with
  | WStore1 _ old_seq => seq (p_obj a) = old_seq
  | WFence _ old_seq | WCopy _ old_seq _ _ =>
      seq (p_obj a) = wrap (old_seq + 1)
  | _ => True
  end.

End seqlock.

(** ** The scenario of the specification

    [T] is a struct of two one-byte fields; the object is constructed with
    [{0,0}] and the writer stores [{1,2}] and then [{3,4}]. *)

Definition v00 : T := [Byte.x00; Byte.x00].
Definition v12 : T := [Byte.x01; Byte.x02].
Definition v34 : T := [Byte.x03; Byte.x04].

(** The storage before the constructor's [store], and the locals of [load]
    before its first [try_load]: some bytes. *)
Definition stale : T := [Byte.xff; Byte.xff].
Definition stale_locals : nat -> T := fun _ => stale.

(** The object after construction with [{0,0}]. *)
Definition obj00 : seqlock_object := {| seq := 2; data := v00 |}.

(** The writer runs [store({1,2})] up to and including its two byte stores
    while [try_load] is between its two byte loads. *)
Definition writer_overlaps : interference :=
  fun j m => if (j =? 2)%nat then {| seq := 3; data := v12 |} else m.

(** The writer runs the whole of [store({1,2})] while [try_load] is
    between its two byte loads. *)
Definition writer_completes : interference :=
  fun j m => if (j =? 2)%nat then {| seq := 4; data := v12 |} else m.

(** Four steps of the writer: the call of [store({1,2})], the counter load,
    the first counter store, and the fence. *)
Definition writer_paused : list thread_id := repeat Writer 4.

(** The reader completes one [load], then loads the counter and the first
    byte; the writer runs [store({1,2})] to its end; the reader finishes the
    failing attempt and makes a successful one; the writer runs
    [store({3,4})]; the reader makes one more call of [load]. *)
Definition overlapping_schedule : list thread_id :=
  repeat Reader 8 ++ repeat Writer 7 ++ repeat Reader 10 ++
  repeat Writer 7 ++ repeat Reader 6.

(** ** A run in which the counter wraps around

    [T] has 65 bytes: a tag byte, then the 64 bits of a number, one per
    byte.  The object is constructed with the number 0 under tag 1; the
    writer stores the numbers 1 to 2^63 under tag 0.  The reader's [load]
    loads the counter and the tag byte, then all of the writer's 2^63 calls
    of [store] run, then the reader goes on. *)

Definition bit_byte (b : bool) : byte := if b then Byte.x01 else Byte.x00.

Definition tagged (tag : byte) (z : Z) : T :=
  tag :: map (fun i => bit_byte (Z.testbit z (Z.of_nat i))) (List.seq 0 64).

Definition wrap_init : T := tagged Byte.x01 0.
Definition wrap_vals : list T := tagged Byte.x00 <$> seqZ 1 (2 ^ 63).
Definition wrap_locals : nat -> T := fun _ => replicate 65 Byte.x00.
Definition wrap_schedule_for (vals : list T) : list thread_id :=
  [Reader; Reader] ++
  repeat Writer (store_cycle 65 true * length vals) ++
  repeat Reader 66.
Definition wrap_schedule : list thread_id := wrap_schedule_for wrap_vals.

(** The tag byte of the initial value followed by the number bytes of the
    last value stored. *)
Definition wrap_mixture : T := tagged Byte.x01 (2 ^ 63).

(** ** Running programs: general facts *)

Lemma run_in_bind {A B : Type} (env : interference) (p : prog A)
    (f : A -> prog B) :
  forall j m,
    run_in env j (bind p f) m =
    let o := run_in env j p m in
    let o' := run_in env (j + length (trace o)) (f (result o)) (final o) in
    mk_outcome (result o') (final o') (trace o ++ trace o')
               (defined o && defined o').
Proof.
  induction p as [a|mo k IH|v mo k IH|i mo k IH|i b mo k IH|mo k IH|k IH];
    intros j m; cbn [bind run_in].
  - cbn. rewrite Nat.add_0_r. by destruct (run_in env j (f a) m).
  - rewrite IH. cbn. by rewrite Nat.add_succ_r.
  - rewrite IH. cbn. by rewrite Nat.add_succ_r.
  - rewrite IH. cbn. by rewrite Nat.add_succ_r.
  - rewrite IH. cbn. by rewrite Nat.add_succ_r.
  - rewrite IH. cbn. by rewrite Nat.add_succ_r.
  - rewrite IH. done.
Qed.

Lemma drift_alone j n m : drift alone j n m = m.
Proof. induction n as [|n IH]; [done|]. cbn. by rewrite IH. Qed.

Lemma loaded_app tr1 tr2 : loaded (tr1 ++ tr2) = loaded tr1 ++ loaded tr2.
Proof.
  induction tr1 as [|e tr1 IH]; [done|]. destruct e; cbn; by rewrite ?IH.
Qed.

Lemma seq_stores_app tr1 tr2 :
  seq_stores (tr1 ++ tr2) = (seq_stores tr1 + seq_stores tr2)%nat.
Proof.
  induction tr1 as [|e tr1 IH]; [done|]. destruct e; cbn; by rewrite ?IH.
Qed.

Lemma loaded_load_events mo first bs : loaded (load_events mo first bs) = bs.
Proof.
  revert first. induction bs as [|b bs IH]; intros first; [done|].
  cbn. f_equal. unfold load_events in IH. rewrite <- (IH (S first)) at 2.
  f_equal. apply imap_ext. intros c x _. cbn. f_equal. lia.
Qed.

Lemma load_events_length mo first bs :
  length (load_events mo first bs) = length bs.
Proof. apply length_imap. Qed.

Lemma load_events_cons mo first b bs :
  load_events mo first (b :: bs) =
  EvDataLoad mo first b :: load_events mo (S first) bs.
Proof.
  unfold load_events. cbn. rewrite Nat.add_0_r. f_equal.
  apply imap_ext. intros c x _. cbn. f_equal. lia.
Qed.

Lemma store_events_cons mo first b bs :
  store_events mo first (b :: bs) =
  EvDataStore mo first b :: store_events mo (S first) bs.
Proof.
  unfold store_events. cbn. rewrite Nat.add_0_r. f_equal.
  apply imap_ext. intros c x _. cbn. f_equal. lia.
Qed.

Lemma drift_next env j c m :
  env (j + c)%nat (match c with O => m | S c' => drift env j c' m end) =
  drift env j c m.
Proof. destruct c; cbn; by rewrite ?Nat.add_0_r. Qed.

Lemma drift_shift env j c m :
  drift env (S j) c (env j m) = drift env j (S c) m.
Proof.
  induction c as [|c IHc]; cbn; [by rewrite Nat.add_1_r|].
  cbn in IHc. rewrite IHc. by rewrite !Nat.add_succ_r.
Qed.

Lemma copy_out_loop env mo :
  forall count first j (dest : T) m,
    (first + count <= length dest)%nat ->
    let o := run_in env j
               (for_range first count
                  (fun i d => b <- data_load i mo ;; Ret (<[i:=b]> d)) dest) m in
    let bs := map (fun c => data (drift env j c m) !!! (first + c)%nat)
                  (List.seq 0 count) in
    result o = take first dest ++ bs ++ drop (first + count) dest /\
    trace o = load_events mo first bs /\
    final o = match count with O => m | S c => drift env j c m end /\
    defined o = true.
Proof.
  induction count as [|count IH]; intros first j dest m Hlen; cbn zeta.
  - cbn. rewrite Nat.add_0_r, take_drop. done.
  - set (b := data (env j m) !!! first).
    assert (first < length dest)%nat as Hlt by lia.
    destruct (IH (S first) (S j) (<[first:=b]> dest) (env j m))
      as (Hr & Ht & Hf & Hdef).
    { rewrite length_insert. lia. }
    assert (Hbs :
      map (fun c => data (drift env (S j) c (env j m)) !!! (S first + c)%nat)
          (List.seq 0 count) =
      map (fun c => data (drift env j c m) !!! (first + c)%nat)
          (List.seq 1 count)).
    { rewrite <- (seq_shift count 0), map_map. apply map_ext. intros c.
      rewrite drift_shift. by rewrite Nat.add_succ_r. }
    rewrite Hbs in Hr, Ht.
    cbn [for_range bind data_load run_in List.seq map emit result trace final
         defined] in Hr, Ht, Hf, Hdef |- *.
    fold b. rewrite Hr, Ht, Hf, Nat.add_0_r. fold b. split_and!.
    + rewrite (take_S_r _ first b) by (by apply list_lookup_insert_eq).
      rewrite take_insert_ge by lia. rewrite drop_insert_lt by lia.
      rewrite <- app_assoc. cbn. by rewrite Nat.add_succ_r.
    + by rewrite load_events_cons.
    + destruct count; cbn; [done|]. by rewrite drift_shift.
    + exact Hdef.
Qed.

Lemma seq_stores_store_events mo first bs :
  seq_stores (store_events mo first bs) = 0%nat.
Proof.
  revert first. induction bs as [|b bs IH]; intros first; [done|].
  rewrite store_events_cons. cbn. apply IH.
Qed.

Lemma lookup_total_seq (l : list byte) n :
  length l = n -> map (fun c => l !!! c) (List.seq 0 n) = l.
Proof.
  intros <-. apply list_eq. intros i. rewrite list_lookup_fmap.
  destruct (decide (i < length l)%nat) as [Hi|Hi].
  - rewrite lookup_seq_lt by done. cbn.
    symmetry. by apply list_lookup_lookup_total_lt.
  - rewrite lookup_seq_ge by lia. cbn. symmetry. apply lookup_ge_None. lia.
Qed.

(** The byte-store loop: its accesses, whatever the other threads do. *)
Lemma copy_in_loop_trace env mo (src : T) :
  forall count first j m,
    trace (run_in env j
             (for_range first count
                (fun i _ => data_store i (src !!! i) mo) tt) m) =
    store_events mo first
      (map (fun c => src !!! (first + c)%nat) (List.seq 0 count)).
Proof.
  induction count as [|count IH]; intros first j m; [done|].
  cbn [for_range bind data_store run_in emit trace List.seq map].
  rewrite store_events_cons, Nat.add_0_r. f_equal.
  specialize (IH (S first) (S j) (set_data first (src !!! first) (env j m))).
  cbn [bind data_store] in IH. rewrite IH. f_equal.
  rewrite <- (seq_shift count 0), map_map. apply map_ext. intros c.
  by rewrite Nat.add_succ_r.
Qed.

(** The byte-store loop with no other thread: the bytes it leaves. *)
Lemma copy_in_loop_alone mo (src : T) :
  forall count first j m,
    (first + count <= length (data m))%nat ->
    final (run_in alone j
             (for_range first count
                (fun i _ => data_store i (src !!! i) mo) tt) m) =
    {| seq := seq m;
       data := take first (data m) ++
               map (fun c => src !!! (first + c)%nat) (List.seq 0 count) ++
               drop (first + count) (data m) |}.
Proof.
  induction count as [|count IH]; intros first j m Hlen.
  - cbn. rewrite Nat.add_0_r, take_drop. by destruct m.
  - cbn [for_range bind data_store run_in emit final List.seq map].
    specialize (IH (S first) (S j) (set_data first (src !!! first) (alone j m))).
    cbn [bind data_store] in IH. rewrite IH.
    2:{ cbn. rewrite length_insert. unfold alone. lia. }
    unfold alone. cbn [seq data set_data]. f_equal.
    rewrite (take_S_r _ first (src !!! first))
      by (apply list_lookup_insert_eq; lia).
    rewrite take_insert_ge by lia. rewrite drop_insert_lt by lia.
    rewrite <- app_assoc, Nat.add_0_r. cbn. f_equal. f_equal.
    rewrite Nat.add_succ_r. f_equal.
    rewrite <- (seq_shift count 0), map_map. apply map_ext. intros c.
    by rewrite Nat.add_succ_r.
Qed.

(** The byte-store loop never leaves defined behaviour. *)
Lemma copy_in_loop_defined env mo (src : T) :
  forall count first j m,
    defined (run_in env j
               (for_range first count
                  (fun i _ => data_store i (src !!! i) mo) tt) m) = true.
Proof.
  induction count as [|count IH]; intros first j m; [done|].
  cbn [for_range bind data_store run_in emit defined].
  specialize (IH (S first) (S j) (set_data first (src !!! first) (env j m))).
  cbn [bind data_store] in IH. exact IH.
Qed.

(** Unsigned wrap-around keeps the parity and the range. *)
Lemma wrap_even z : Z.even (wrap z) = Z.even z.
Proof.
  unfold wrap, size_t_bits.
  rewrite (Z.div_mod z (2 ^ 64)) at 2 by lia.
  rewrite Z.even_add, Z.even_mul. cbn. by destruct (Z.even (z mod 2 ^ 64)).
Qed.

Lemma mod2_even z : (z mod 2 =? 0) = Z.even z.
Proof. rewrite Zmod_even. by destruct (Z.even z). Qed.

Lemma odd_even z : Z.odd z = negb (Z.even z).
Proof. by rewrite <- Z.negb_odd, negb_involutive. Qed.

Lemma wrap_range z : 0 <= wrap z <= SIZE_MAX.
Proof. unfold wrap, SIZE_MAX, size_t_bits. pose proof (Z.mod_pos_bound z (2 ^ 64)). lia. Qed.

Lemma wrap_small z : 0 <= z <= SIZE_MAX -> wrap z = z.
Proof. unfold wrap, SIZE_MAX, size_t_bits. intros. apply Z.mod_small. lia. Qed.

Lemma wrap_plus_wrap z k : wrap (wrap z + k) = wrap (z + k).
Proof. unfold wrap. by rewrite Zplus_mod_idemp_l. Qed.

(** ** The member functions, one thread at a time *)

Section facts.

Variable sizeof_T : nat.
Variable CRILL_BYTEWISE_ATOMIC_MEMCPY_AVAILABLE : bool.
Variable T_default : T.
Variable uninit : nat -> T.

Local Abbreviation memcpy_out :=
  (memcpy_out sizeof_T CRILL_BYTEWISE_ATOMIC_MEMCPY_AVAILABLE).
Local Abbreviation memcpy_in :=
  (memcpy_in sizeof_T CRILL_BYTEWISE_ATOMIC_MEMCPY_AVAILABLE).
Local Abbreviation try_load :=
  (try_load sizeof_T CRILL_BYTEWISE_ATOMIC_MEMCPY_AVAILABLE).
Local Abbreviation store :=
  (store sizeof_T CRILL_BYTEWISE_ATOMIC_MEMCPY_AVAILABLE).
Local Abbreviation load_in :=
  (load_in sizeof_T CRILL_BYTEWISE_ATOMIC_MEMCPY_AVAILABLE).
Local Abbreviation load :=
  (load sizeof_T CRILL_BYTEWISE_ATOMIC_MEMCPY_AVAILABLE).
Local Abbreviation seqlock_object_value :=
  (seqlock_object_value sizeof_T CRILL_BYTEWISE_ATOMIC_MEMCPY_AVAILABLE).
Local Abbreviation seqlock_object_default :=
  (seqlock_object_default sizeof_T CRILL_BYTEWISE_ATOMIC_MEMCPY_AVAILABLE
     T_default).
Local Abbreviation stable := (stable sizeof_T).
Local Abbreviation operation_wf := (operation_wf sizeof_T).
Local Abbreviation apply_operation :=
  (apply_operation sizeof_T CRILL_BYTEWISE_ATOMIC_MEMCPY_AVAILABLE).
Local Abbreviation after :=
  (after sizeof_T CRILL_BYTEWISE_ATOMIC_MEMCPY_AVAILABLE).
Local Abbreviation writer_step :=
  (writer_step sizeof_T CRILL_BYTEWISE_ATOMIC_MEMCPY_AVAILABLE).
Local Abbreviation reader_step :=
  (reader_step sizeof_T CRILL_BYTEWISE_ATOMIC_MEMCPY_AVAILABLE uninit).
Local Abbreviation sys_step :=
  (sys_step sizeof_T CRILL_BYTEWISE_ATOMIC_MEMCPY_AVAILABLE uninit).
Local Abbreviation sys_run :=
  (sys_run sizeof_T CRILL_BYTEWISE_ATOMIC_MEMCPY_AVAILABLE uninit).
Local Abbreviation sys_init :=
  (sys_init sizeof_T CRILL_BYTEWISE_ATOMIC_MEMCPY_AVAILABLE uninit).
Local Abbreviation at_points :=
  (at_points sizeof_T CRILL_BYTEWISE_ATOMIC_MEMCPY_AVAILABLE).
Local Abbreviation points_step :=
  (points_step sizeof_T CRILL_BYTEWISE_ATOMIC_MEMCPY_AVAILABLE uninit).
Local Abbreviation points_run :=
  (points_run sizeof_T CRILL_BYTEWISE_ATOMIC_MEMCPY_AVAILABLE uninit).
Local Abbreviation points_init :=
  (points_init sizeof_T CRILL_BYTEWISE_ATOMIC_MEMCPY_AVAILABLE uninit).
Local Abbreviation wcode :=
  (wcode sizeof_T CRILL_BYTEWISE_ATOMIC_MEMCPY_AVAILABLE).
Local Abbreviation rcode :=
  (rcode sizeof_T CRILL_BYTEWISE_ATOMIC_MEMCPY_AVAILABLE).
Local Abbreviation copy_order_in :=
  (copy_order_in CRILL_BYTEWISE_ATOMIC_MEMCPY_AVAILABLE).
Local Abbreviation copy_order_out :=
  (copy_order_out CRILL_BYTEWISE_ATOMIC_MEMCPY_AVAILABLE).
Local Abbreviation writer_inv := (writer_inv sizeof_T).
Local Abbreviation reader_inv := (reader_inv sizeof_T).
Local Abbreviation tear_inv := (tear_inv sizeof_T).
Local Abbreviation store_cycle :=
  (store_cycle sizeof_T CRILL_BYTEWISE_ATOMIC_MEMCPY_AVAILABLE).
Local Abbreviation in_bounds := (in_bounds sizeof_T).
Local Abbreviation store_accesses :=
  (store_accesses sizeof_T CRILL_BYTEWISE_ATOMIC_MEMCPY_AVAILABLE).
Local Abbreviation memcpy_in_events :=
  (memcpy_in_events sizeof_T CRILL_BYTEWISE_ATOMIC_MEMCPY_AVAILABLE).
Local Abbreviation memcpy_out_events :=
  (memcpy_out_events CRILL_BYTEWISE_ATOMIC_MEMCPY_AVAILABLE).
Local Abbreviation second_load :=
  (second_load sizeof_T CRILL_BYTEWISE_ATOMIC_MEMCPY_AVAILABLE).
Lemma memcpy_in_trace env j (t : T) m :
  trace (run_in env j (memcpy_in t) m) = memcpy_in_events t.
Proof.
  unfold memcpy_in, memcpy_in_events,
    copy_order_in, atomic_store_per_byte_memcpy.
  destruct CRILL_BYTEWISE_ATOMIC_MEMCPY_AVAILABLE.
  - by rewrite copy_in_loop_trace.
  - cbn [bind atomic_thread_fence run_in emit trace app].
    by rewrite copy_in_loop_trace.
Qed.

Lemma memcpy_in_alone j (t : T) m :
  length (data m) = sizeof_T -> length t = sizeof_T ->
  final (run_in alone j (memcpy_in t) m) = {| seq := seq m; data := t |}.
Proof.
  intros Hm Ht.
  assert (forall mo j m, length (data m) = sizeof_T ->
    final (run_in alone j
             (for_range 0 sizeof_T
                (fun i _ => data_store i (t !!! i) mo) tt) m) =
    {| seq := seq m; data := t |}) as Hloop.
  { intros mo j' m' Hm'. rewrite copy_in_loop_alone by (cbn; lia).
    f_equal. cbn [take app Nat.add]. rewrite drop_ge by lia.
    rewrite app_nil_r. by apply lookup_total_seq. }
  unfold memcpy_in, atomic_store_per_byte_memcpy.
  destruct CRILL_BYTEWISE_ATOMIC_MEMCPY_AVAILABLE.
  - by apply Hloop.
  - cbn [bind atomic_thread_fence run_in emit final]. by apply Hloop.
Qed.

Lemma memcpy_in_defined env j (t : T) m :
  defined (run_in env j (memcpy_in t) m) = true.
Proof.
  unfold memcpy_in, atomic_store_per_byte_memcpy.
  destruct CRILL_BYTEWISE_ATOMIC_MEMCPY_AVAILABLE.
  - apply copy_in_loop_defined.
  - cbn [bind atomic_thread_fence run_in emit defined].
    apply copy_in_loop_defined.
Qed.

(** [store], whatever the other threads do: its accesses in order, and
    the counter it leaves. *)
Lemma store_run_in env j (t : T) m :
  let old_seq := seq (env j m) in
  let o := run_in env j (store t) m in
  trace o =
    EvSeqLoad memory_order_relaxed old_seq ::
    EvSeqStore memory_order_relaxed (wrap (old_seq + 1)) ::
    memcpy_in_events t ++
    [EvSeqStore memory_order_release (wrap (old_seq + 2))] /\
  seq (final o) = wrap (old_seq + 2) /\
  result o = tt.
Proof.
  cbn zeta. unfold store.
  cbn [bind seq_load seq_store run_in emit trace final result].
  rewrite run_in_bind. cbn [trace final result run_in emit].
  rewrite memcpy_in_trace. split_and!; [done| |done].
  by destruct (env _ _).
Qed.

(** [store] stays within defined behaviour, whatever the other threads
    do. *)
Lemma store_defined env j (t : T) m :
  defined (run_in env j (store t) m) = true.
Proof.
  unfold store. cbn [bind seq_load seq_store run_in emit defined].
  rewrite run_in_bind. cbn [defined run_in emit].
  rewrite memcpy_in_defined. done.
Qed.

(** [store] with no other thread: the object it leaves. *)
Lemma store_alone (t : T) m :
  length (data m) = sizeof_T -> length t = sizeof_T ->
  final (run (store t) m) = {| seq := wrap (seq m + 2); data := t |}.
Proof.
  intros Hm Ht. unfold run, store.
  cbn [bind seq_load seq_store run_in emit final].
  rewrite run_in_bind. cbn [trace final result run_in emit].
  rewrite memcpy_in_alone by done. done.
Qed.

(** [memcpy_out], whatever the other threads do. *)
Lemma memcpy_out_run_in env j (t : T) m :
  length t = sizeof_T ->
  let o := run_in env j (memcpy_out t) m in
  let bs := map (fun c => data (drift env j c m) !!! c) (List.seq 0 sizeof_T) in
  let f := if CRILL_BYTEWISE_ATOMIC_MEMCPY_AVAILABLE then 0%nat else 1%nat in
  result o = bs /\
  trace o = memcpy_out_events bs /\
  length (trace o) = (sizeof_T + f)%nat /\
  env (j + (sizeof_T + f))%nat (final o) = drift env j (sizeof_T + f) m /\
  defined o = false.
Proof.
  intros Ht. cbn zeta.
  unfold memcpy_out, memcpy_out_events, copy_order_out,
    atomic_load_per_byte_memcpy.
  set (bs := map _ _).
  assert (length bs = sizeof_T) as Hbs
    by (unfold bs; by rewrite length_map, length_seq).
  destruct CRILL_BYTEWISE_ATOMIC_MEMCPY_AVAILABLE; rewrite run_in_bind;
    cbn zeta.
  - destruct (copy_out_loop env memory_order_acquire sizeof_T 0 j t m)
      as (Hr & Htr & Hf & _); [lia|].
    cbn [Nat.add take app] in Hr, Htr. fold bs in Hr, Htr.
    rewrite drop_ge, app_nil_r in Hr by lia.
    cbn [bind flows_off_end run_in undefined result trace final defined].
    rewrite Hr, Htr, Hf, !app_nil_r.
    rewrite load_events_length, Hbs, !Nat.add_0_r.
    split_and!; [done|done|done| |apply andb_false_r]. apply drift_next.
  - destruct (copy_out_loop env memory_order_relaxed sizeof_T 0 j t m)
      as (Hr & Htr & Hf & _); [lia|].
    cbn [Nat.add take app] in Hr, Htr. fold bs in Hr, Htr.
    rewrite drop_ge, app_nil_r in Hr by lia.
    cbn [bind atomic_thread_fence flows_off_end run_in undefined emit
         result trace final defined].
    rewrite Hr, Htr, Hf. rewrite length_app, load_events_length, Hbs.
    split_and!; [done|done|done| |apply andb_false_r].
    rewrite drift_next. rewrite Nat.add_1_r. cbn. by rewrite Nat.add_succ_r.
Qed.

(** [try_load], whatever the other threads do: what it returns, what it
    leaves in [t], and its accesses in order. *)
Lemma try_load_run_in env j (t : T) m :
  length t = sizeof_T ->
  let seq1 := seq (drift env j 0 m) in
  let bs := map (fun c => data (drift env j (S c) m) !!! c)
                (List.seq 0 sizeof_T) in
  let seq2 := seq (drift env j second_load m) in
  run_in env j (try_load t) m =
  if negb (seq1 mod 2 =? 0) then
    mk_outcome (false, t) (drift env j 0 m)
               [EvSeqLoad memory_order_acquire seq1] true
  else
    mk_outcome (seq1 =? seq2, bs) (drift env j second_load m)
               (EvSeqLoad memory_order_acquire seq1 ::
                memcpy_out_events bs ++
                [EvSeqLoad memory_order_relaxed seq2]) false.
Proof.
  intros Ht. cbn zeta. unfold try_load.
  cbn [bind seq_load run_in drift].
  destruct (negb (seq (env j m) mod 2 =? 0)) eqn:Hodd; [done|].
  rewrite run_in_bind. cbn zeta.
  destruct (memcpy_out_run_in env (S j) t (env j m) Ht)
    as (Hr & Htr & Hl & Hf & Hdef).
  rewrite Hr, Htr, Hdef. rewrite Htr in Hl. rewrite Hl.
  cbn [bind seq_load run_in emit result trace final defined andb].
  rewrite Hf.
  assert (forall c, drift env (S j) c (env j m) = drift env j (S c) m) as Hd
    by (intros; apply drift_shift).
  rewrite Hd. unfold second_load.
  assert (map (fun c => data (drift env (S j) c (env j m)) !!! c)
              (List.seq 0 sizeof_T) =
          map (fun c => data (drift env j (S c) m) !!! c)
              (List.seq 0 sizeof_T)) as ->
    by (apply map_ext; intros; by rewrite Hd).
  done.
Qed.

(** [try_load] with no other thread. *)
Lemma try_load_alone (t : T) m :
  length t = sizeof_T -> stable m ->
  run (try_load t) m =
  mk_outcome (true, data m) m
    (EvSeqLoad memory_order_acquire (seq m) ::
     memcpy_out_events (data m) ++ [EvSeqLoad memory_order_relaxed (seq m)])
    false.
Proof.
  intros Ht [Heven Hm]. unfold run. rewrite try_load_run_in by done.
  cbn zeta. rewrite !drift_alone, mod2_even, Heven. cbn [negb].
  rewrite Z.eqb_refl.
  assert (map (fun c => data (drift alone 0 (S c) m) !!! c)
              (List.seq 0 sizeof_T) = data m) as ->; [|done].
  etransitivity; [|exact (lookup_total_seq (data m) sizeof_T Hm)].
  apply map_ext. intros c. by rewrite drift_alone.
Qed.

Lemma try_load_alone_odd (t : T) m :
  Z.odd (seq m) = true ->
  run (try_load t) m =
  mk_outcome (false, t) m [EvSeqLoad memory_order_acquire (seq m)] true.
Proof.
  intros Hodd. unfold run, try_load. cbn [bind seq_load run_in].
  change (alone 0%nat m) with m. by rewrite mod2_even, <- odd_even, Hodd.
Qed.

(** [load] with no other thread, on an object that is not being written:
    one call of [try_load]. *)
Lemma load_alone fuel (t : T) m :
  length t = sizeof_T -> stable m ->
  load (S fuel) t m =
  mk_outcome (Some (data m), 1%nat) m (trace (run (try_load t) m)) false.
Proof.
  intros Ht Hm. unfold load. cbn [load_in]. fold (run (try_load t) m).
  rewrite try_load_alone by done. done.
Qed.

Lemma store_stable (t : T) m :
  stable m -> length t = sizeof_T -> stable (final (run (store t) m)).
Proof.
  intros [Heven Hm] Ht. rewrite store_alone by done. split; [|done].
  cbn. rewrite wrap_even, Z.even_add, Heven. done.
Qed.

Lemma fresh_store (garbage : list byte) (t : T) :
  length garbage = sizeof_T -> length t = sizeof_T ->
  final (run (store t) (fresh garbage)) = {| seq := 2; data := t |}.
Proof. intros Hg Ht. by rewrite store_alone. Qed.

Lemma constructed_stable (garbage : list byte) (t : T) :
  length garbage = sizeof_T -> length t = sizeof_T ->
  stable (seqlock_object_value garbage t).
Proof.
  intros Hg Ht. unfold seqlock_object_value. by rewrite fresh_store.
Qed.

Lemma apply_operation_stable m o :
  stable m -> operation_wf o -> stable (apply_operation m o).
Proof.
  intros Hm Ho. destruct o as [t|[|fuel] t|t];
    unfold apply_operation, operation_wf in *.
  - by apply store_stable.
  - done.
  - by rewrite load_alone.
  - by rewrite try_load_alone.
Qed.

Lemma after_stable ops :
  forall m, stable m -> Forall operation_wf ops -> stable (after ops m).
Proof.
  induction ops as [|o ops IH]; intros m Hm Hops; [done|].
  inversion Hops; subst. cbn. apply IH; [|done].
  by apply apply_operation_stable.
Qed.

(** C1: what the code does on the single-thread round trip.  With no
    concurrent operation, on an object that is not being written,
    [store(v)] stays within defined behaviour and leaves the bytes of [v] in
    the storage under an even counter.  The call of [load()] that follows
    reads that even counter and calls [memcpy_out], where control flows off
    the end of a function declared to return a [T]: the behaviour of
    [load()] is undefined, whatever its local held and however many attempts
    are allowed, so the source does not make it return [v]. *)
Theorem store_then_load_undefined (m : seqlock_object) (v t : T)
    (fuel : nat) :
  stable m -> length v = sizeof_T -> length t = sizeof_T ->
  let o := run (store v) m in
  defined o = true /\
  final o = {| seq := wrap (seq m + 2); data := v |} /\
  defined (load (S fuel) t (final o)) = false.
Proof.
  intros Hm Hv Ht. cbn zeta. split_and!.
  - apply store_defined.
  - destruct Hm as [_ Hm]. by apply store_alone.
  - by rewrite load_alone by (done || by apply store_stable).
Qed.

(** C3: [store] makes exactly these accesses, in this order, whatever the
    other threads do in between: load the counter, store the loaded value
    plus 1, copy the bytes of the value into the storage, store the loaded
    value plus 2.  The counter it leaves is the loaded value plus 2 in
    [size_t] arithmetic: larger by exactly 2 unless that wraps around. *)
Theorem store_steps (env : interference) (j : nat) (t : T)
    (m : seqlock_object) :
  let old_seq := seq (env j m) in
  let o := run_in env j (store t) m in
  trace o =
    [EvSeqLoad memory_order_relaxed old_seq;
     EvSeqStore memory_order_relaxed (wrap (old_seq + 1))] ++
    memcpy_in_events t ++
    [EvSeqStore memory_order_release (wrap (old_seq + 2))] /\
  loaded (trace o) = [] /\
  seq_stores (trace o) = 2%nat /\
  seq (final o) = (old_seq + 2) mod 2 ^ 64 /\
  (0 <= old_seq -> old_seq + 2 <= SIZE_MAX ->
   seq (final o) = old_seq + 2 /\ old_seq < seq (final o)).
Proof.
  cbn zeta. destruct (store_run_in env j t m) as (Htr & Hseq & _).
  rewrite Htr, Hseq. split_and!; [done| | |done|].
  - cbn. rewrite loaded_app. cbn. rewrite app_nil_r.
    unfold memcpy_in_events. rewrite loaded_app.
    assert (forall mo f bs, loaded (store_events mo f bs) = []) as Hs.
    { intros mo f bs. revert f. induction bs as [|b bs IH]; intros f; [done|].
      rewrite store_events_cons. cbn. apply IH. }
    rewrite Hs. by destruct CRILL_BYTEWISE_ATOMIC_MEMCPY_AVAILABLE.
  - cbn. rewrite seq_stores_app. cbn. unfold memcpy_in_events.
    rewrite seq_stores_app, seq_stores_store_events.
    by destruct CRILL_BYTEWISE_ATOMIC_MEMCPY_AVAILABLE.
  - intros H0 Hmax. rewrite wrap_small by lia. lia.
Qed.

(** C7: what the code does in and after the constructors.  Both
    constructors run the ordinary [store] on the freshly initialised
    members, within defined behaviour: the constructed object has the
    counter 2, as after a first write, and the value in its storage,
    whatever bytes the storage held before.  A call of [load()] on the
    constructed object reads the even counter and flows off the end of
    [memcpy_out]: its behaviour is undefined, so the source does not make it
    return [T()] or [v]. *)
Theorem constructors_install_by_store (garbage : list byte) (v t : T)
    (fuel : nat) :
  length garbage = sizeof_T -> length v = sizeof_T ->
  length T_default = sizeof_T -> length t = sizeof_T ->
  seqlock_object_default garbage = {| seq := 2; data := T_default |} /\
  seqlock_object_value garbage v = {| seq := 2; data := v |} /\
  seq (seqlock_object_value garbage v) = wrap (seq (fresh garbage) + 2) /\
  defined (run (store T_default) (fresh garbage)) = true /\
  defined (run (store v) (fresh garbage)) = true /\
  defined (load (S fuel) t (seqlock_object_default garbage)) = false /\
  defined (load (S fuel) t (seqlock_object_value garbage v)) = false.
Proof.
  intros Hg Hv Hd Ht.
  unfold seqlock_object_default, seqlock_object_value.
  rewrite !fresh_store by done.
  split_and!; try done.
  - apply store_defined.
  - apply store_defined.
  - by rewrite load_alone.
  - by rewrite load_alone.
Qed.

(** C8: what the code does when the same value is stored twice in
    succession.  The storage holds the value after the first call and after
    the second, and the counter has advanced by 4 in [size_t] arithmetic, 2
    for each call, although the second call changes no byte of the storage.
    The call of [load()] that follows flows off the end of [memcpy_out]: its
    behaviour is undefined, so the source does not make it return the
    value. *)
Theorem store_twice_same_value (m : seqlock_object) (v t : T) (fuel : nat) :
  stable m -> length v = sizeof_T -> length t = sizeof_T ->
  let m1 := final (run (store v) m) in
  let m2 := final (run (store v) m1) in
  seq m1 = wrap (seq m + 2) /\
  seq m2 = wrap (seq m1 + 2) /\
  seq m2 = wrap (seq m + 4) /\
  data m1 = v /\
  data m2 = v /\
  (0 <= seq m -> seq m + 4 <= SIZE_MAX -> seq m2 = seq m + 4) /\
  defined (load (S fuel) t m2) = false.
Proof.
  intros Hm Hv Ht. cbn zeta.
  pose proof (store_stable v m Hm Hv) as Hm1.
  pose proof (store_stable v _ Hm1 Hv) as Hm2.
  destruct Hm as [Heven Hm].
  rewrite (store_alone v m) in * by done.
  rewrite store_alone in * by done. cbn [seq data].
  split_and!; try done.
  - rewrite wrap_plus_wrap. f_equal. lia.
  - intros H0 Hmax. rewrite wrap_plus_wrap, wrap_small by lia. lia.
  - by rewrite load_alone.
Qed.

(** C9: what the code does to the argument of [try_load].  The behaviour
    of a call is defined exactly when the first counter value is odd, and
    then the call returns false with [t] untouched and without a byte load.
    On every even first counter value the call goes into [memcpy_out] and
    flows off its end: from there on the source determines neither whether
    [t] has been overwritten nor what the call returns, so a call that fails
    because the second counter value differs is never within defined
    behaviour. *)
Theorem try_load_output_slot (env : interference) (j : nat) (t : T)
    (m : seqlock_object) :
  length t = sizeof_T ->
  let seq1 := seq (drift env j 0 m) in
  let o := run_in env j (try_load t) m in
  (defined o = true <-> seq1 mod 2 <> 0) /\
  (defined o = true ->
   result o = (false, t) /\ loaded (trace o) = [] /\
   final o = drift env j 0 m) /\
  (seq1 mod 2 = 0 -> defined o = false).
Proof.
  intros Ht. cbn zeta. rewrite try_load_run_in by done. cbn zeta.
  destruct (seq (drift env j 0 m) mod 2 =? 0) eqn:Heq; cbn [negb defined].
  - apply Z.eqb_eq in Heq. split_and!; [split|..]; done.
  - apply Z.eqb_neq in Heq. split_and!; [split|..]; done.
Qed.

(** C10: [memcpy_out] is declared to return a [T] and control flows off
    the end of its body in both branches, whatever the object holds and
    whatever the other threads do: no run of it stays within defined
    behaviour.  Every call of [try_load] that reads an even counter makes
    this call right after its first counter load and leaves defined
    behaviour with it; a call of [try_load] that reads an odd counter makes
    no other access and stays within defined behaviour. *)
Theorem memcpy_out_flows_off_end (env : interference) (j : nat) (t : T)
    (m : seqlock_object) :
  defined (run_in env j (memcpy_out t) m) = false /\
  let seq1 := seq (env j m) in
  let o := run_in env j (try_load t) m in
  let c := run_in env (S j) (memcpy_out t) (env j m) in
  if seq1 mod 2 =? 0 then
    defined c = false /\ defined o = false /\
    exists rest, trace o = EvSeqLoad memory_order_acquire seq1 :: trace c ++ rest
  else
    defined o = true /\ trace o = [EvSeqLoad memory_order_acquire seq1].
Proof.
  assert (forall env j (t : T) m,
            defined (run_in env j (memcpy_out t) m) = false) as Hoff.
  { clear. intros env j t m. unfold memcpy_out.
    destruct CRILL_BYTEWISE_ATOMIC_MEMCPY_AVAILABLE; rewrite run_in_bind;
      cbn [bind atomic_thread_fence flows_off_end run_in emit undefined
           defined]; apply andb_false_r. }
  split; [apply Hoff|]. cbn zeta.
  unfold try_load. cbn [bind seq_load run_in].
  destruct (seq (env j m) mod 2 =? 0); cbn [negb]; [|done].
  rewrite run_in_bind. cbn zeta.
  cbn [emit defined trace]. rewrite Hoff.
  split_and!; [done|done|]. by eexists.
Qed.

(** Every step of the two-thread system moves the threads from program
    points to program points. *)
Lemma sys_step_at_points a who :
  sys_step (at_points a) who = at_points (points_step a who).
Proof.
  destruct a as [m w todo r obs], who.
  - destruct w as [|t|t old|t old|t old i [|c]]; cbn;
      [by destruct todo | reflexivity | | reflexivity ..].
    by destruct CRILL_BYTEWISE_ATOMIC_MEMCPY_AVAILABLE.
  - destruct r as [t|seq1 i [|c] t|seq1 t|[] t]; cbn;
      [ by destruct (negb (seq m mod 2 =? 0))
      | by destruct CRILL_BYTEWISE_ATOMIC_MEMCPY_AVAILABLE
      | by destruct CRILL_BYTEWISE_ATOMIC_MEMCPY_AVAILABLE
      | reflexivity .. ].
Qed.

Lemma sys_run_at_points sched :
  forall a, sys_run sched (at_points a) = at_points (points_run sched a).
Proof.
  induction sched as [|who sched IH]; intros a; [done|].
  cbn. rewrite sys_step_at_points. apply IH.
Qed.

Lemma sys_init_at_points garbage v0 vals :
  sys_init garbage v0 vals = at_points (points_init garbage v0 vals).
Proof. reflexivity. Qed.

(** *** The writer running on its own *)

Lemma points_run_app l1 l2 a :
  points_run (l1 ++ l2) a = points_run l2 (points_run l1 a).
Proof. apply foldl_app. Qed.

Lemma writer_copy_run (t : T) old todo r obs :
  forall c i m,
    (i + c)%nat = length (data m) -> length t = length (data m) ->
    points_run (repeat Writer c) (mk_points m (WCopy t old i c) todo r obs) =
    mk_points {| seq := seq m; data := take i (data m) ++ drop i t |}
              (WCopy t old (i + c) 0) todo r obs.
Proof.
  induction c as [|c IH]; intros i m Hic Ht.
  - cbn. rewrite Nat.add_0_r in *. rewrite take_ge, drop_ge by lia.
    rewrite app_nil_r. by destruct m.
  - cbn [repeat]. change (points_run (Writer :: ?l) ?a)
      with (points_run l (points_step a Writer)).
    cbn [points_step p_obj p_wpc p_todo p_rpc p_obs].
    rewrite IH by (cbn; rewrite length_insert; lia).
    cbn [seq data set_data]. rewrite Nat.add_succ_r. f_equal. f_equal.
    rewrite (take_S_r _ i (t !!! i))
      by (apply list_lookup_insert_eq; lia).
    rewrite take_insert_ge by lia. rewrite <- app_assoc. f_equal.
    symmetry. apply drop_S. apply list_lookup_lookup_total_lt. lia.
Qed.

(** One whole call of [store] by the writer, the reader standing still. *)
Lemma writer_store_cycle m (v : T) rest r obs :
  length (data m) = sizeof_T -> length v = sizeof_T ->
  points_run (repeat Writer store_cycle) (mk_points m WIdle (v :: rest) r obs) =
  mk_points {| seq := wrap (seq m + 2); data := v |} WIdle rest r obs.
Proof.
  intros Hm Hv. unfold store_cycle.
  rewrite repeat_app, points_run_app.
  assert (points_run
            (repeat Writer
               (3 + (if CRILL_BYTEWISE_ATOMIC_MEMCPY_AVAILABLE then 0 else 1)))
            (mk_points m WIdle (v :: rest) r obs) =
          mk_points (set_seq (wrap (seq m + 1)) m)
                    (WCopy v (seq m) 0 sizeof_T) rest r obs) as ->.
  { by destruct CRILL_BYTEWISE_ATOMIC_MEMCPY_AVAILABLE. }
  rewrite repeat_app, points_run_app.
  rewrite writer_copy_run by (cbn; lia).
  reflexivity.
Qed.

(** The writer of the two-thread system, left alone, makes the call of
    [store] that is next on its list: it leaves what [store] leaves. *)
Lemma writer_runs_store m (v : T) rest r obs :
  length (data m) = sizeof_T -> length v = sizeof_T ->
  points_run (repeat Writer store_cycle) (mk_points m WIdle (v :: rest) r obs) =
  mk_points (final (run (store v) m)) WIdle rest r obs.
Proof. intros Hm Hv. by rewrite writer_store_cycle, store_alone. Qed.

Lemma default_last_cons (d v : T) (vs : list T) :
  default d (last (v :: vs)) = default v (last vs).
Proof.
  revert d v. induction vs as [|v' vs IH]; intros d v; [done|].
  change (last (v :: v' :: vs)) with (last (v' :: vs)).
  by rewrite (IH d v'), (IH v v').
Qed.

(** All the calls of [store] for [vs], the reader standing still: the
    counter has advanced by twice their number in [size_t] arithmetic. *)
Lemma writer_runs_all (vs : list T) :
  forall m rest r obs,
    length (data m) = sizeof_T -> 0 <= seq m <= SIZE_MAX ->
    Forall (fun v : T => length v = sizeof_T) vs ->
    points_run (repeat Writer (store_cycle * length vs))
               (mk_points m WIdle (vs ++ rest) r obs) =
    mk_points {| seq := wrap (seq m + 2 * Z.of_nat (length vs));
                 data := default (data m) (last vs) |}
              WIdle rest r obs.
Proof.
  induction vs as [|v vs IH]; intros m rest r obs Hm Hseq Hvs.
  - rewrite Nat.mul_0_r. cbn. rewrite Z.add_0_r, wrap_small by done.
    by destruct m.
  - apply Forall_cons in Hvs as [Hv Hvs'].
    cbn [length]. rewrite Nat.mul_succ_r, Nat.add_comm.
    rewrite repeat_app, points_run_app. cbn [app].
    rewrite writer_store_cycle by done.
    rewrite IH; [|done|apply wrap_range|done].
    cbn [seq data]. rewrite default_last_cons, wrap_plus_wrap.
    do 3 f_equal. lia.
Qed.

(** *** The parity of the counter *)

Lemma constructed_seq (garbage : list byte) (t : T) :
  seq (seqlock_object_value garbage t) = 2.
Proof.
  unfold seqlock_object_value, run.
  by destruct (store_run_in alone 0 t (fresh garbage)) as (_ & -> & _).
Qed.

Lemma parity_inv_init garbage v0 vals :
  parity_inv (points_init garbage v0 vals).
Proof.
  unfold parity_inv, points_init. cbn [p_obj p_wpc].
  by rewrite constructed_seq.
Qed.

Lemma parity_inv_step a who :
  parity_inv a -> parity_inv (points_step a who).
Proof.
  destruct a as [m w todo r obs], who; unfold parity_inv; cbn.
  - destruct w as [|t|t old|t old|t old i [|c]]; cbn.
    + by destruct todo.
    + done.
    + intros [-> Heven].
      assert (Z.odd (wrap (seq m + 1)) = true) as Hodd.
      { rewrite odd_even, wrap_even, Z.even_add, Heven. done. }
      by destruct CRILL_BYTEWISE_ATOMIC_MEMCPY_AVAILABLE.
    + done.
    + intros [Heven _]. by rewrite wrap_even, Z.even_add, Heven.
    + done.
  - by destruct r as [t|seq1 i [|c] t|seq1 t|[] t].
Qed.

Lemma parity_inv_run sched :
  forall a, parity_inv a -> parity_inv (points_run sched a).
Proof.
  induction sched as [|who sched IH]; intros a Ha; [done|].
  cbn. by apply IH, parity_inv_step.
Qed.

Lemma pending_at_points a :
  pending_seq_stores (at_points a) =
  match p_wpc a with
  | WIdle => 0%nat
  | WCall _ | WStore1 _ _ => 2%nat
  | WFence _ _ | WCopy _ _ _ _ => 1%nat
  end.
Proof.
  destruct a as [m w todo r obs]. unfold pending_seq_stores, run. cbn.
  assert (forall t, seq_stores (memcpy_in_events t) = 0%nat) as Hin.
  { intros t. unfold memcpy_in_events.
    rewrite seq_stores_app, seq_stores_store_events.
    by destruct CRILL_BYTEWISE_ATOMIC_MEMCPY_AVAILABLE. }
  destruct w as [|t|t old|t old|t old i c]; cbn.
  - done.
  - rewrite run_in_bind. cbn. rewrite memcpy_in_trace, seq_stores_app, Hin.
    done.
  - rewrite run_in_bind. cbn. rewrite memcpy_in_trace, seq_stores_app, Hin.
    done.
  - rewrite run_in_bind. cbn. rewrite copy_in_loop_trace.
    by rewrite seq_stores_app, seq_stores_store_events.
  - rewrite run_in_bind. cbn. rewrite copy_in_loop_trace.
    by rewrite seq_stores_app, seq_stores_store_events.
Qed.

Lemma odd_iff_pending sched garbage v0 vals :
  let s := sys_run sched (sys_init garbage v0 vals) in
  Z.odd (seq (obj s)) = true <-> pending_seq_stores s = 1%nat.
Proof.
  cbn zeta. rewrite sys_init_at_points, sys_run_at_points, pending_at_points.
  pose proof (parity_inv_run sched _ (parity_inv_init garbage v0 vals)) as H.
  destruct (points_run sched _) as [m w todo r obs].
  unfold parity_inv in H. cbn in *.
  destruct w as [|t|t old|t old|t old i c].
  - by rewrite odd_even, H.
  - by rewrite odd_even, H.
  - destruct H as [<- H]. by rewrite odd_even, H.
  - by destruct H as [_ ->].
  - by destruct H as [_ ->].
Qed.

(** C4: The counter is even exactly when no write is in progress.  After
    any sequence of completed operations on a constructed object it is even;
    in every state of the two-thread system it is odd exactly when the
    writer stands between the two counter stores of a call of [store]; and
    a call of [try_load] that returns true has read an even counter value
    with its first access. *)
Theorem seq_even_iff_no_write_in_progress :
  (forall (garbage : list byte) (v0 : T) ops,
     length garbage = sizeof_T -> length v0 = sizeof_T ->
     length T_default = sizeof_T -> Forall operation_wf ops ->
     Z.even (seq (after ops (seqlock_object_value garbage v0))) = true /\
     Z.even (seq (after ops (seqlock_object_default garbage))) = true) /\
  (forall (garbage : list byte) (v0 : T) (vals : list T) sched,
     let s := sys_run sched (sys_init garbage v0 vals) in
     (Z.odd (seq (obj s)) = true <-> pending_seq_stores s = 1%nat) /\
     (Z.even (seq (obj s)) = true <-> pending_seq_stores s <> 1%nat)) /\
  (forall env j (t : T) m,
     length t = sizeof_T ->
     fst (result (run_in env j (try_load t) m)) = true ->
     Z.even (seq (drift env j 0 m)) = true /\
     head (trace (run_in env j (try_load t) m)) =
       Some (EvSeqLoad memory_order_acquire (seq (drift env j 0 m)))).
Proof.
  split_and!.
  - intros garbage v0 ops Hg Hv Hd Hops. split.
    + by apply after_stable; [apply constructed_stable|].
    + by apply after_stable; [apply constructed_stable|].
  - intros garbage v0 vals sched s.
    pose proof (odd_iff_pending sched garbage v0 vals) as H. fold s in H.
    split; [done|]. rewrite <- H, odd_even.
    by destruct (Z.even (seq (obj s))).
  - intros env j t m Ht. rewrite try_load_run_in by done. cbn zeta.
    rewrite mod2_even. by destruct (Z.even (seq (drift env j 0 m))).
Qed.

(** C2: what the code does in [try_load].  The call first loads the
    counter.  When the value is odd it returns false at once: that load is
    its only access, [t] is left as it was, and the behaviour is defined.
    In particular, called while the writer stands between the two counter
    stores of a call of [store], it returns false.  When the value is even
    the call goes into [memcpy_out] and flows off its end: the behaviour is
    undefined from there on, so the source does not make the call load the
    counter a second time and return the comparison. *)
Theorem try_load_protocol (env : interference) (j : nat) (t : T)
    (m : seqlock_object) :
  length t = sizeof_T ->
  let seq1 := seq (drift env j 0 m) in
  let o := run_in env j (try_load t) m in
  head (trace o) = Some (EvSeqLoad memory_order_acquire seq1) /\
  (seq1 mod 2 <> 0 ->
   o = mk_outcome (false, t) (drift env j 0 m)
         [EvSeqLoad memory_order_acquire seq1] true) /\
  (seq1 mod 2 = 0 -> defined o = false) /\
  (forall (garbage : list byte) (v0 : T) (vals : list T) sched,
     let s := sys_run sched (sys_init garbage v0 vals) in
     pending_seq_stores s = 1%nat ->
     run (try_load t) (obj s) =
     mk_outcome (false, t) (obj s)
       [EvSeqLoad memory_order_acquire (seq (obj s))] true).
Proof.
  intros Ht. cbn zeta. rewrite try_load_run_in by done. cbn zeta.
  split_and!.
  - by destruct (negb _).
  - intros Hodd. apply Z.eqb_neq in Hodd. by rewrite Hodd.
  - intros Heven. apply Z.eqb_eq in Heven. by rewrite Heven.
  - intros garbage v0 vals sched Hpending.
    apply try_load_alone_odd. by apply odd_iff_pending.
Qed.

(** *** No torn read while the counter does not wrap *)

Lemma drop_S_cons (l : list T) k t rest :
  drop (S k) l = t :: rest ->
  drop (S (S k)) l = rest /\ l !!! S k = t /\ (S k < length l)%nat.
Proof.
  intros Hd.
  assert (l !! S k = Some t) as Hl.
  { rewrite <- (Nat.add_0_r (S k)), <- lookup_drop, Hd. done. }
  split_and!.
  - replace (S (S k)) with (S k + 1)%nat by lia.
    by rewrite <- drop_drop, Hd.
  - by apply list_lookup_total_correct.
  - by eapply lookup_lt_Some.
Qed.

Lemma seq_of_even k : Z.even (seq_of k) = true.
Proof. unfold seq_of. by rewrite wrap_even, Z.even_mul. Qed.

Lemma seq_of_succ_odd k : Z.even (seq_of k + 1) = false.
Proof. by rewrite Z.even_add, seq_of_even. Qed.

Lemma seq_of_succ_small k : wrap (seq_of k + 1) = seq_of k + 1.
Proof.
  apply wrap_small. unfold seq_of, wrap, SIZE_MAX, size_t_bits.
  Z.div_mod_to_equations. lia.
Qed.

Lemma seq_of_succ k : wrap (seq_of k + 2) = seq_of (S k).
Proof. unfold seq_of. rewrite wrap_plus_wrap. f_equal. lia. Qed.

(** Fewer than 2^63 calls apart, two counter values are not confused. *)
Lemma seq_of_inj j k :
  (j <= k)%nat -> Z.of_nat k < 2 ^ 63 -> seq_of j = seq_of k -> j = k.
Proof.
  unfold seq_of, wrap, size_t_bits. intros Hjk Hk.
  Z.div_mod_to_equations. lia.
Qed.

Lemma Forall_le_trans (js : list nat) j k :
  (j <= k)%nat -> Forall (fun j' => j' <= j)%nat js ->
  Forall (fun j' => j' <= k)%nat js.
Proof. intros Hjk Hjs. eapply Forall_impl; [done|]. intros; cbn in *; lia. Qed.

Section no_tear.

Variable hist : list T.
Hypothesis hist_sizes : Forall (fun v : T => length v = sizeof_T) hist.
Hypothesis no_wrap : Z.of_nat (length hist) <= 2 ^ 63.
Hypothesis uninit_sizes : forall i, length (uninit i) = sizeof_T.

Lemma hist_size k : (k < length hist)%nat -> length (hist !!! k : T) = sizeof_T.
Proof.
  intros Hk. destruct (lookup_lt_is_Some_2 hist k Hk) as [v Hv].
  rewrite (list_lookup_total_correct _ _ _ Hv).
  by eapply (Forall_lookup_1 _ _ _ _ hist_sizes).
Qed.

Lemma writer_inv_even k a :
  writer_inv hist k a -> Z.even (seq (p_obj a)) = true ->
  seq (p_obj a) = seq_of k /\ data (p_obj a) = hist !!! k.
Proof.
  destruct a as [m w todo r obs]. unfold writer_inv. cbn.
  intros [Hk H] Heven.
  destruct w as [|t|t old|t old|t old i c].
  - by destruct H as (_ & ? & ?).
  - by destruct H as (_ & ? & ?).
  - by destruct H as (_ & ? & ? & _).
  - destruct H as (_ & Hs & _). by rewrite Hs, seq_of_succ_odd in Heven.
  - destruct H as (_ & Hs & _). by rewrite Hs, seq_of_succ_odd in Heven.
Qed.

Lemma reader_inv_mono k k' now now' pc js :
  reader_inv hist k now pc js -> (k <= k')%nat ->
  now' = now \/ (forall j, (j <= k)%nat -> now' <> seq_of j) ->
  reader_inv hist k' now' pc js.
Proof.
  intros H Hk Hnow. destruct pc as [t|seq1 i c t|seq1 t|[] t]; cbn in *.
  - destruct H as [? ?]. eauto using Forall_le_trans.
  - destruct H as (j & -> & Hj & Hjs & Hic & Ht & Hcopy).
    exists j. split_and!; try done; [lia|].
    intros ->. destruct Hnow as [<-|Hnow]; [by apply Hcopy|].
    by destruct (Hnow j Hj).
  - destruct H as (j & -> & Hj & Hjs & Ht & Hcopy).
    exists j. split_and!; try done; [lia|].
    intros ->. destruct Hnow as [<-|Hnow]; [by apply Hcopy|].
    by destruct (Hnow j Hj).
  - destruct H as (j & Hj & Hjs & ->). exists j. split_and!; try done; lia.
  - destruct H as [? ?]. eauto using Forall_le_trans.
Qed.

Lemma tear_inv_writer_step a :
  tear_inv hist a -> tear_inv hist (points_step a Writer).
Proof.
  intros (k & js & Hw & Hobs & Hsorted & Hr).
  destruct a as [m w todo r obs]. unfold writer_inv in Hw.
  cbn in Hw, Hobs, Hr. destruct Hw as [Hk Hw].
  unfold tear_inv, writer_inv.
  destruct w as [|t|t old|t old|t old i [|c]]; cbn.
  - destruct Hw as (Hd & Hs & Hdata). destruct todo as [|t todo].
    + exists k, js. cbn. by split_and!.
    + exists k, js. cbn. by split_and!.
  - destruct Hw as (Hd & Hs & Hdata). exists k, js. by split_and!.
  - destruct Hw as (Hd & Hs & Hdata & ->).
    destruct (drop_S_cons _ _ _ _ Hd) as (_ & _ & Hk').
    pose proof (seq_of_succ_small k) as Hwrap.
    exists k, js.
    assert (reader_inv hist k (seq_of k + 1) r js) as Hr'.
    { eapply reader_inv_mono; [done..|]. right. intros j _ Heq.
      pose proof (seq_of_even j) as He. rewrite <- Heq in He.
      by rewrite seq_of_succ_odd in He. }
    destruct CRILL_BYTEWISE_ATOMIC_MEMCPY_AVAILABLE; cbn; rewrite Hwrap;
      split_and!; done.
  - destruct Hw as (Hd & Hs & Hdata & ->). exists k, js. cbn.
    split_and!; done.
  - destruct Hw as (Hd & Hs & Hdata & -> & Hic).
    destruct (drop_S_cons _ _ _ _ Hd) as (Hd' & Ht & Hk').
    pose proof (seq_of_succ k) as Hwrap.
    exists (S k), js. cbn. rewrite Hwrap. split_and!; try done.
    + rewrite Hdata. rewrite Nat.add_0_r in Hic. subst i.
      rewrite <- Ht. rewrite take_ge, drop_ge; rewrite ?hist_size; try lia.
      by rewrite app_nil_r.
    + eapply reader_inv_mono; [done|lia|]. right. intros j Hj Heq.
      symmetry in Heq. apply seq_of_inj in Heq; lia.
  - destruct Hw as (Hd & Hs & Hdata & -> & Hic).
    destruct (drop_S_cons _ _ _ _ Hd) as (Hd' & Ht & Hk').
    exists k, js. cbn. split_and!; try done; [|lia].
    rewrite Hdata.
    assert (length t = sizeof_T) as Hlt by (rewrite <- Ht; by apply hist_size).
    assert (length (hist !!! k : T) = sizeof_T) as Hlk by by apply hist_size.
    rewrite insert_app_r_alt by (rewrite length_take; lia).
    rewrite length_take, Nat.min_l, Nat.sub_diag by lia.
    rewrite (take_S_r t i (t !!! i))
      by (apply list_lookup_lookup_total_lt; lia).
    rewrite <- app_assoc. f_equal.
    rewrite (drop_S (hist !!! k) ((hist !!! k) !!! i) i)
      by (apply list_lookup_lookup_total_lt; lia).
    done.
Qed.

Lemma take_S_insert (t d : T) i :
  (i < length t)%nat -> (i < length d)%nat ->
  take i t = take i d ->
  take (S i) (<[i:=d !!! i]> t) = take (S i) d.
Proof.
  intros Ht Hd Heq.
  rewrite (take_S_r _ i (d !!! i)) by by apply list_lookup_insert_eq.
  rewrite take_insert_ge by lia. rewrite Heq. symmetry.
  apply take_S_r. by apply list_lookup_lookup_total_lt.
Qed.

Lemma take_all_eq (t d : T) :
  length t = sizeof_T -> length d = sizeof_T ->
  take sizeof_T t = take sizeof_T d -> t = d.
Proof. intros Ht Hd. by rewrite !take_ge by lia. Qed.

Lemma tear_inv_reader_step a :
  tear_inv hist a -> tear_inv hist (points_step a Reader).
Proof.
  intros (k & js & Hw & Hobs & Hsorted & Hr).
  pose proof (writer_inv_even k a Hw) as Heven.
  destruct a as [m w todo r obs]. cbn in Hobs, Hr, Heven.
  assert (Hk : (k < length hist)%nat) by apply Hw.
  unfold tear_inv.
  destruct r as [t|seq1 i [|c] t|seq1 t|[] t]; cbn in Hr |- *.
  - destruct Hr as [Ht Hjs]. exists k, js. rewrite mod2_even.
    destruct (Z.even (seq m)) eqn:He; cbn; split_and!; try done.
    destruct (Heven eq_refl) as [Hs Hd].
    exists k. by split_and!.
  - destruct Hr as (j & -> & Hj & Hjs & Hic & Ht & Hcopy).
    rewrite Nat.add_0_r in Hic. subst i.
    assert (seq m = seq_of j -> t = hist !!! j) as Hwhole.
    { intros Hs. apply take_all_eq; [done| |by apply Hcopy].
      apply hist_size. lia. }
    exists k, js.
    destruct CRILL_BYTEWISE_ATOMIC_MEMCPY_AVAILABLE; cbn.
    + destruct (seq_of j =? seq m) eqn:Heq; cbn; split_and!; try done.
      * apply Z.eqb_eq in Heq. exists j. split_and!; try done. by apply Hwhole.
      * eauto using Forall_le_trans.
    + split_and!; try done. exists j. by split_and!.
  - destruct Hr as (j & -> & Hj & Hjs & Hic & Ht & Hcopy).
    exists k, js. cbn. split_and!; try done.
    exists j. split_and!; try done; [lia|by rewrite length_insert|].
    intros Hs. pose proof (seq_of_even j) as He. rewrite <- Hs in He.
    destruct (Heven He) as [Hsk Hd]. rewrite Hs in Hsk.
    apply seq_of_inj in Hsk; [|lia..]. subst j. rewrite Hd.
    apply take_S_insert; [lia| |by apply Hcopy].
    rewrite hist_size; lia.
  - destruct Hr as (j & -> & Hj & Hjs & Ht & Hcopy).
    exists k, js. cbn. split_and!; try done.
    destruct (seq_of j =? seq m) eqn:Heq; cbn.
    + apply Z.eqb_eq in Heq. exists j. split_and!; try done. by apply Hcopy.
    + eauto using Forall_le_trans.
  - destruct Hr as (j & Hj & Hjs & ->).
    exists k, (js ++ [j]). cbn. split_and!; try done.
    + by rewrite Hobs, map_app.
    + apply StronglySorted_app_2; [|done|repeat constructor].
      intros x1 x2 Hx1 Hx2. apply list_elem_of_singleton in Hx2 as ->.
      by eapply (proj1 (Forall_forall _ _) Hjs).
    + apply Forall_app. split; [eauto using Forall_le_trans|].
      by repeat constructor.
  - destruct Hr as [Ht Hjs]. exists k, js. by split_and!.
Qed.

Lemma tear_inv_run sched :
  forall a, tear_inv hist a -> tear_inv hist (points_run sched a).
Proof.
  induction sched as [|who sched IH]; intros a Ha; [done|].
  cbn. apply IH. destruct who.
  - by apply tear_inv_writer_step.
  - by apply tear_inv_reader_step.
Qed.

Lemma reader_inv_bound k now pc js :
  reader_inv hist k now pc js -> Forall (fun j' => j' <= k)%nat js.
Proof.
  destruct pc as [t|seq1 i c t|seq1 t|[] t]; cbn.
  - by intros [_ ?].
  - intros (j & _ & Hj & Hjs & _). eauto using Forall_le_trans.
  - intros (j & _ & Hj & Hjs & _). eauto using Forall_le_trans.
  - intros (j & Hj & Hjs & _). eauto using Forall_le_trans.
  - by intros [_ ?].
Qed.

End no_tear.

Lemma tear_inv_init garbage (v0 : T) (vals : list T) :
  length garbage = sizeof_T -> length v0 = sizeof_T ->
  length (uninit 0) = sizeof_T ->
  tear_inv (v0 :: vals) (points_init garbage v0 vals).
Proof.
  intros Hg Hv Hu. exists 0%nat, []. unfold writer_inv, points_init.
  cbn [p_obj p_wpc p_todo p_rpc p_obs]. unfold seqlock_object_value.
  rewrite fresh_store by done. cbn. split_and!; try done; try lia.
  constructor.
Qed.

(** For a build that carries on past the end of [memcpy_out], and for
    interleaved accesses: one writer thread makes [N] calls of [store] in
    sequence, concurrently with a reader thread that calls [load] again and
    again.  When [N < 2^63], so that the 64-bit counter does not come back
    to a value it had before, every value that [load] returns is the initial
    value or one of the [N] stored values, whole, and the values are returned
    in the order in which the writer stored them. *)
Theorem no_torn_read_without_wraparound (garbage : list byte) (v0 : T)
    (vals : list T) (sched : list thread_id) :
  length garbage = sizeof_T ->
  length v0 = sizeof_T ->
  Forall (fun v : T => length v = sizeof_T) vals ->
  (forall i, length (uninit i) = sizeof_T) ->
  Z.of_nat (length vals) < 2 ^ 63 ->
  let s := sys_run sched (sys_init garbage v0 vals) in
  exists js : list nat,
    r_obs (rd s) = map (fun j => (v0 :: vals) !!! j) js /\
    Forall (fun j => j <= length vals)%nat js /\
    StronglySorted le js /\
    Forall (fun v => v ∈ v0 :: vals) (r_obs (rd s)).
Proof.
  intros Hg Hv Hvals Hu Hwrap. cbn zeta.
  rewrite sys_init_at_points, sys_run_at_points.
  assert (Forall (fun v : T => length v = sizeof_T) (v0 :: vals)) as Hsizes
    by by constructor.
  assert (Z.of_nat (length (v0 :: vals)) <= 2 ^ 63) as Hbound
    by (cbn [length]; lia).
  pose proof (tear_inv_run (v0 :: vals) Hsizes Hbound Hu sched _
                (tear_inv_init garbage v0 vals Hg Hv (Hu 0%nat)))
    as (k & js & Hw & Hobs & Hsorted & Hr).
  destruct (points_run sched _) as [m w todo r obs].
  cbn in Hobs, Hr |- *. destruct Hw as [Hk _]. cbn in Hk.
  pose proof (reader_inv_bound _ _ _ _ _ Hr) as Hjs.
  assert (Forall (fun j => j <= length vals)%nat js) as Hjs'.
  { eapply Forall_impl; [exact Hjs|]. intros j Hj. cbn in Hj. lia. }
  exists js. split_and!; try done.
  rewrite Hobs. apply Forall_fmap.
  eapply Forall_impl; [exact Hjs'|]. intros j Hj. cbn.
  apply list_elem_of_lookup_total_2. cbn in Hj |- *. lia.
Qed.

(** *** The calls of [load] *)

Lemma writer_step_frame a :
  p_rpc (points_step a Writer) = p_rpc a /\
  p_obs (points_step a Writer) = p_obs a.
Proof.
  destruct a as [m w todo r obs].
  destruct w as [|t|t old|t old|t old i [|c]]; cbn; try done.
  by destruct todo.
Qed.

Lemma reader_flows_off_at_points a :
  reader_flows_off (at_points a) =
  match p_rpc a with
  | RCopy _ _ O _ => CRILL_BYTEWISE_ATOMIC_MEMCPY_AVAILABLE
  | RLoad2 _ _ => true
  | _ => false
  end.
Proof.
  destruct a as [m w todo r obs]. unfold reader_flows_off. cbn.
  destruct r as [t|seq1 i [|c] t|seq1 t|ok t]; cbn; try done;
    by destruct CRILL_BYTEWISE_ATOMIC_MEMCPY_AVAILABLE.
Qed.

(** Before the reader has a value to hand back, it has stepped past the
    end of [memcpy_out]. *)
Lemma value_after_fall_off sched :
  forall a0,
    p_obs a0 = [] -> (forall t, p_rpc a0 <> RRet true t) ->
    let a := points_run sched a0 in
    p_obs a <> [] \/ (exists t, p_rpc a = RRet true t) ->
    exists pre post,
      sched = pre ++ Reader :: post /\
      reader_flows_off (at_points (points_run pre a0)) = true /\
      p_obs (points_run pre a0) = [].
Proof.
  induction sched as [|who sched IH] using rev_ind; intros a0 Hobs0 Hpc0;
    cbn zeta.
  - cbn. intros [H|[t H]]; [done|by destruct (Hpc0 t)].
  - rewrite points_run_app.
    change (points_run [who] ?x) with (points_step x who).
    set (a' := points_run sched a0).
    assert (p_obs a' <> [] \/ (exists t, p_rpc a' = RRet true t) ->
            exists pre post,
              sched ++ [who] = pre ++ Reader :: post /\
              reader_flows_off (at_points (points_run pre a0)) = true /\
              p_obs (points_run pre a0) = []) as Hold.
    { intros H. destruct (IH a0 Hobs0 Hpc0 H) as (pre & post & -> & Hf & Ho).
      exists pre, (post ++ [who]). by rewrite <- app_assoc. }
    destruct who.
    + destruct (writer_step_frame a') as [-> ->]. exact Hold.
    + intros Hnew.
      destruct (p_obs a') as [|v obs'] eqn:Hobs';
        [|apply Hold; by left].
      destruct (p_rpc a') as [t|seq1 i [|c] t|seq1 t|[] t] eqn:Hpc'.
      * exfalso. destruct a' as [m w todo r obs]. cbn in Hobs', Hpc'.
        subst r obs. cbn in Hnew. destruct Hnew as [H|[t' H]]; [done|].
        by destruct (negb _).
      * pose proof (reader_flows_off_at_points a') as Hfl.
        rewrite Hpc' in Hfl.
        destruct (decide (CRILL_BYTEWISE_ATOMIC_MEMCPY_AVAILABLE = true))
          as [Hflag|Hflag%not_true_is_false].
        -- exists sched, []. split; [done|]. split; [|done].
           fold a'. by rewrite Hfl.
        -- exfalso. destruct a' as [m w todo r obs]. cbn in Hobs', Hpc'.
           subst r obs. cbn in Hnew. rewrite Hflag in Hnew.
           by destruct Hnew as [H|[t' H]].
      * exfalso. destruct a' as [m w todo r obs]. cbn in Hobs', Hpc'.
        subst r obs. cbn in Hnew. by destruct Hnew as [H|[t' H]].
      * exists sched, []. split; [done|]. split; [|done].
        rewrite reader_flows_off_at_points. fold a'. by rewrite Hpc'.
      * apply Hold. right. by exists t.
      * exfalso. destruct a' as [m w todo r obs]. cbn in Hobs', Hpc'.
        subst r obs. cbn in Hnew. by destruct Hnew as [H|[t' H]].
Qed.

(** C5: what the code does when a reader thread calls [load] while the
    writer thread makes its calls of [store].  In every run of the two
    threads, whatever the values stored and however the accesses of the two
    threads are interleaved, the reader obtains no value before a call of
    [try_load] of its has read an even counter and run off the end of
    [memcpy_out]: every value that a call of [load] hands back is handed
    back after the behaviour of the reader has become undefined, so the
    source does not make these values the stored ones. *)
Theorem reader_values_only_after_fall_off (garbage : list byte) (v0 : T)
    (vals : list T) (sched : list thread_id) :
  let s0 := sys_init garbage v0 vals in
  r_obs (rd (sys_run sched s0)) <> [] ->
  exists pre post,
    sched = pre ++ Reader :: post /\
    reader_flows_off (sys_run pre s0) = true /\
    r_obs (rd (sys_run pre s0)) = [].
Proof.
  cbn zeta. rewrite sys_init_at_points, sys_run_at_points. cbn [at_points rd r_obs].
  intros Hobs.
  destruct (value_after_fall_off sched (points_init garbage v0 vals))
    as (pre & post & Hs & Hf & Ho); [done|done|by left|].
  exists pre, post. rewrite sys_run_at_points. by split_and!.
Qed.

(** A step of the reader leaves the object and the writer alone. *)
Lemma reader_step_frame a :
  p_obj (points_step a Reader) = p_obj a /\
  p_wpc (points_step a Reader) = p_wpc a /\
  p_todo (points_step a Reader) = p_todo a /\
  (length (p_obs a) <= length (p_obs (points_step a Reader)))%nat.
Proof.
  destruct a as [m w todo r obs].
  destruct r as [t|seq1 i [|c] t|seq1 t|[] t]; cbn; split_and!; try done.
  rewrite length_app. cbn. lia.
Qed.

Lemma load_alone_odd fuel (t : T) m :
  Z.odd (seq m) = true ->
  load fuel t m =
  mk_outcome (None, fuel) m
    (repeat (EvSeqLoad memory_order_acquire (seq m)) fuel) true.
Proof.
  intros Hodd. unfold load. generalize 0%nat as j.
  induction fuel as [|fuel IH]; intros j; [done|].
  cbn [load_in].
  assert (forall j, run_in alone j (try_load t) m =
                    mk_outcome (false, t) m
                      [EvSeqLoad memory_order_acquire (seq m)] true) as Htry.
  { intros j'. unfold try_load. cbn [bind seq_load run_in].
    change (alone j' m) with m. by rewrite mod2_even, <- odd_even, Hodd. }
  rewrite Htry. cbn [result fst snd final trace defined]. by rewrite IH.
Qed.

(** A call of [load] hands back a value only after a call of [try_load]
    of its loop has flowed off the end of [memcpy_out]. *)
Lemma load_in_value_undefined fuel :
  forall env j (t : T) m v k,
    length t = sizeof_T ->
    result (load_in fuel env j t m) = (Some v, k) ->
    defined (load_in fuel env j t m) = false.
Proof.
  induction fuel as [|fuel IH]; intros env j t m v k Ht; [done|].
  cbn [load_in]. rewrite try_load_run_in by done. cbn zeta.
  destruct (negb _); cbn [result fst snd final trace defined andb].
  - set (o' := load_in fuel env _ _ _).
    destruct (result o') as [r k'] eqn:Ho'. cbn [fst snd].
    intros [= -> <-]. by eapply IH.
  - by destruct (_ =? _).
Qed.

(** C6: what the code does in [load].  The call runs [try_load] again
    until a call of it reports success.  On an object that is not being
    written, with no other thread, the first call of [try_load] reads the
    even counter and flows off the end of [memcpy_out]: the behaviour of
    [load] is undefined there, so the source does not make it return the
    stored value after one attempt.  Whatever the other threads do, no call
    of [load] hands back a value within defined behaviour.  While the
    counter stays odd the call stays within defined behaviour and every
    attempt fails after its first counter load, however many are made. *)
Theorem load_flows_off_end :
  (forall fuel (t : T) m,
     length t = sizeof_T -> stable m ->
     defined (load (S fuel) t m) = false) /\
  (forall fuel env j (t : T) m v k,
     length t = sizeof_T ->
     result (load_in fuel env j t m) = (Some v, k) ->
     defined (load_in fuel env j t m) = false) /\
  (forall fuel (t : T) m,
     Z.odd (seq m) = true ->
     load fuel t m =
     mk_outcome (None, fuel) m
       (repeat (EvSeqLoad memory_order_acquire (seq m)) fuel) true).
Proof.
  split_and!.
  - intros fuel t m Ht Hm. by rewrite load_alone.
  - intros fuel. apply load_in_value_undefined.
  - intros fuel t m. apply load_alone_odd.
Qed.

(** *** What the member functions never do *)

Lemma writes_app tr1 tr2 : writes (tr1 ++ tr2) = (writes tr1 + writes tr2)%nat.
Proof.
  induction tr1 as [|e tr1 IH]; [done|]. destruct e; cbn; by rewrite ?IH.
Qed.

Lemma writes_load_events mo first bs : writes (load_events mo first bs) = 0%nat.
Proof.
  revert first. induction bs as [|b bs IH]; intros first; [done|].
  rewrite load_events_cons. cbn. apply IH.
Qed.

Lemma writes_memcpy_out_events bs : writes (memcpy_out_events bs) = 0%nat.
Proof.
  unfold memcpy_out_events. rewrite writes_app, writes_load_events.
  by destruct CRILL_BYTEWISE_ATOMIC_MEMCPY_AVAILABLE.
Qed.

Lemma memcpy_out_events_length bs :
  length (memcpy_out_events bs) =
  (length bs + (if CRILL_BYTEWISE_ATOMIC_MEMCPY_AVAILABLE then 0 else 1))%nat.
Proof.
  unfold memcpy_out_events. rewrite length_app, load_events_length.
  by destruct CRILL_BYTEWISE_ATOMIC_MEMCPY_AVAILABLE.
Qed.

Lemma copied_length env j m :
  length (map (fun c => data (drift env j (S c) m) !!! c)
              (List.seq 0 sizeof_T)) = sizeof_T.
Proof. by rewrite length_map, length_seq. Qed.

(** The shape of every run of [try_load]. *)
Lemma try_load_cases env j (t : T) m :
  length t = sizeof_T ->
  let o := run_in env j (try_load t) m in
  (o = mk_outcome (false, t) (drift env j 0 m)
         [EvSeqLoad memory_order_acquire (seq (drift env j 0 m))] true) \/
  (exists ok bs seq2,
     length bs = sizeof_T /\
     bs = map (fun c => data (drift env j (S c) m) !!! c)
              (List.seq 0 sizeof_T) /\
     o = mk_outcome (ok, bs) (drift env j second_load m)
           (EvSeqLoad memory_order_acquire (seq (drift env j 0 m)) ::
            memcpy_out_events bs ++ [EvSeqLoad memory_order_relaxed seq2])
           false).
Proof.
  intros Ht. cbn zeta. rewrite try_load_run_in by done. cbn zeta.
  destruct (negb _); [by left|]. right.
  eexists _, _, _. split_and!; [|done|done]. apply copied_length.
Qed.

Lemma try_load_slot_length env j (t : T) m :
  length t = sizeof_T ->
  length (snd (result (run_in env j (try_load t) m))) = sizeof_T.
Proof.
  intros Ht. destruct (try_load_cases env j t m Ht)
    as [->|(ok & bs & seq2 & Hbs & _ & ->)]; done.
Qed.

Lemma try_load_writes_final env j (t : T) m :
  length t = sizeof_T ->
  writes (trace (run_in env j (try_load t) m)) = 0%nat /\
  final (run_in env j (try_load t) m) =
    drift env j (length (trace (run_in env j (try_load t) m)) - 1) m.
Proof.
  intros Ht.
  destruct (try_load_cases env j t m Ht)
    as [->|(ok & bs & seq2 & Hbs & _ & ->)]; [done|].
  cbn [trace final writes length].
  rewrite writes_app, writes_memcpy_out_events.
  rewrite length_app, memcpy_out_events_length, Hbs. cbn [length].
  split; [done|]. unfold second_load. f_equal. lia.
Qed.

Lemma load_in_writes fuel :
  forall env j (t : T) m,
    length t = sizeof_T -> writes (trace (load_in fuel env j t m)) = 0%nat.
Proof.
  induction fuel as [|fuel IH]; intros env j t m Ht; [done|].
  cbn [load_in]. destruct (try_load_writes_final env j t m Ht) as [Hw _].
  pose proof (try_load_slot_length env j t m Ht) as Hlen.
  destruct (fst (result _)); cbn [trace]; [done|].
  by rewrite writes_app, Hw, IH.
Qed.

Lemma try_load_final_alone j (t : T) m :
  length t = sizeof_T -> final (run_in alone j (try_load t) m) = m.
Proof.
  intros Ht. destruct (try_load_writes_final alone j t m Ht) as [_ ->].
  apply drift_alone.
Qed.

Lemma load_in_final_alone fuel m :
  forall j (t : T),
    length t = sizeof_T -> final (load_in fuel alone j t m) = m.
Proof.
  induction fuel as [|fuel IH]; intros j t Ht; [done|].
  cbn [load_in]. pose proof (try_load_final_alone j t m Ht) as Hf.
  pose proof (try_load_slot_length alone j t m Ht) as Hlen.
  destruct (fst (result _)); cbn [final]; [done|].
  rewrite Hf. by apply IH.
Qed.

(** X3: [try_load] and [load] are [const]: whatever the other threads do,
    no access of theirs is a store, to the counter or to the storage, and
    [try_load] leaves the object exactly as the other threads made it
    before its last access; with no other thread both leave it as it
    was. *)
Theorem loads_never_write (fuel : nat) (env : interference) (j : nat)
    (t : T) (m : seqlock_object) :
  length t = sizeof_T ->
  let o := run_in env j (try_load t) m in
  writes (trace o) = 0%nat /\
  final o = drift env j (length (trace o) - 1) m /\
  writes (trace (load_in fuel env j t m)) = 0%nat /\
  final (run (try_load t) m) = m /\
  final (load fuel t m) = m.
Proof.
  intros Ht. cbn zeta.
  destruct (try_load_writes_final env j t m Ht) as [Hw Hf].
  split_and!; [done|done| | |].
  - by apply load_in_writes.
  - by apply try_load_final_alone.
  - by apply load_in_final_alone.
Qed.

(** X1: The indeterminate content of the uninitialised local [T t] of
    [load] never shows: whatever the other threads do and however many
    attempts are allowed, [load] makes the same accesses, leaves the same
    object and returns the same result from any two initial contents of
    [t]. *)
Theorem load_ignores_uninitialised_local (fuel : nat) (env : interference)
    (j : nat) (t t' : T) (m : seqlock_object) :
  length t = sizeof_T -> length t' = sizeof_T ->
  load_in fuel env j t m = load_in fuel env j t' m.
Proof.
  revert j t t' m. induction fuel as [|fuel IH]; intros j t t' m Ht Ht';
    [done|].
  cbn [load_in].
  rewrite (try_load_run_in env j t), (try_load_run_in env j t') by done.
  cbn zeta. destruct (negb _); [|done].
  cbn [result fst snd final trace]. by rewrite (IH _ t t').
Qed.

(** *** Bounded work and bounded indices *)

Lemma memcpy_in_events_length (t : T) :
  length (memcpy_in_events t) =
  (sizeof_T + (if CRILL_BYTEWISE_ATOMIC_MEMCPY_AVAILABLE then 0 else 1))%nat.
Proof.
  unfold memcpy_in_events, store_events.
  rewrite length_app, length_imap, length_map, length_seq.
  destruct CRILL_BYTEWISE_ATOMIC_MEMCPY_AVAILABLE; cbn; lia.
Qed.

Lemma try_load_trace_length env j (t : T) m :
  length t = sizeof_T ->
  (1 <= length (trace (run_in env j (try_load t) m)) <= second_load + 1)%nat.
Proof.
  intros Ht. destruct (try_load_cases env j t m Ht)
    as [->|(ok & bs & seq2 & Hbs & _ & ->)]; cbn [trace length].
  - lia.
  - rewrite length_app, memcpy_out_events_length, Hbs. unfold second_load.
    cbn [length]. lia.
Qed.

(** X2: [store] never waits for another thread.  Whatever the other
    threads do between its accesses, a call of [store] makes exactly
    [sizeof(T) + 3] atomic accesses, one more with the fence of the
    per-byte backend, of which [memcpy_in] makes [sizeof(T)], one more with
    the fence; and the call stays within defined behaviour. *)
Theorem store_is_wait_free (env : interference) (j : nat) (t : T)
    (m : seqlock_object) :
  length (trace (run_in env j (store t) m)) = store_accesses /\
  length (trace (run_in env j (memcpy_in t) m)) =
    (sizeof_T + (if CRILL_BYTEWISE_ATOMIC_MEMCPY_AVAILABLE then 0 else 1))%nat /\
  defined (run_in env j (store t) m) = true.
Proof.
  split_and!.
  - destruct (store_run_in env j t m) as (-> & _).
    cbn [length]. rewrite length_app, memcpy_in_events_length.
    unfold store_accesses. cbn [length]. lia.
  - by rewrite memcpy_in_trace, memcpy_in_events_length.
  - apply store_defined.
Qed.

Lemma store_events_in_bounds mo bs :
  forall first, (first + length bs <= sizeof_T)%nat ->
    Forall in_bounds (store_events mo first bs).
Proof.
  induction bs as [|b bs IH]; intros first Hlen; [constructor|].
  rewrite store_events_cons. cbn [length] in Hlen. constructor; [cbn; lia|].
  apply IH. lia.
Qed.

Lemma load_events_in_bounds mo bs :
  forall first, (first + length bs <= sizeof_T)%nat ->
    Forall in_bounds (load_events mo first bs).
Proof.
  induction bs as [|b bs IH]; intros first Hlen; [constructor|].
  rewrite load_events_cons. cbn [length] in Hlen. constructor; [cbn; lia|].
  apply IH. lia.
Qed.

Lemma try_load_in_bounds env j (t : T) m :
  length t = sizeof_T ->
  Forall in_bounds (trace (run_in env j (try_load t) m)).
Proof.
  intros Ht. destruct (try_load_cases env j t m Ht)
    as [->|(ok & bs & seq2 & Hbs & _ & ->)]; cbn [trace].
  - by repeat constructor.
  - constructor; [done|]. apply Forall_app. split; [|by repeat constructor].
    unfold memcpy_out_events. apply Forall_app. split.
    + apply load_events_in_bounds. lia.
    + destruct CRILL_BYTEWISE_ATOMIC_MEMCPY_AVAILABLE; by repeat constructor.
Qed.

(** X9: No access runs past the end of the storage.  Whatever the other
    threads do, every byte access of [store], [try_load] and [load] has an
    index below [sizeof(T)], the length of [data]. *)
Theorem accesses_in_bounds (fuel : nat) (env : interference) (j : nat)
    (t : T) (m : seqlock_object) :
  length t = sizeof_T ->
  Forall in_bounds (trace (run_in env j (store t) m)) /\
  Forall in_bounds (trace (run_in env j (try_load t) m)) /\
  Forall in_bounds (trace (load_in fuel env j t m)).
Proof.
  intros Ht. split_and!.
  - destruct (store_run_in env j t m) as (-> & _).
    do 2 (constructor; [done|]). apply Forall_app.
    split; [|by repeat constructor].
    unfold memcpy_in_events. apply Forall_app. split.
    + destruct CRILL_BYTEWISE_ATOMIC_MEMCPY_AVAILABLE; by repeat constructor.
    + apply store_events_in_bounds. rewrite length_map, length_seq. lia.
  - by apply try_load_in_bounds.
  - revert j t m Ht. induction fuel as [|fuel IH]; intros j t m Ht;
      [constructor|].
    cbn [load_in]. pose proof (try_load_in_bounds env j t m Ht) as Hb.
    pose proof (try_load_slot_length env j t m Ht) as Hlen.
    destruct (fst (result _)); cbn [trace]; [done|].
    apply Forall_app. split; [done|]. by apply IH.
Qed.

(** *** The storage, and the object as a register *)

(** X8: [memcpy_in] replaces the whole storage.  Whatever the other
    threads do, the accesses of [memcpy_in] are byte stores, and the fence
    of the per-byte backend: none loads a byte or touches the counter.
    With no other thread it overwrites every byte of the storage with the
    bytes of its argument, whatever the storage held, and leaves the counter
    alone. *)
Theorem memcpy_in_overwrites_storage (env : interference) (j : nat)
    (m : seqlock_object) (t : T) :
  length (data m) = sizeof_T -> length t = sizeof_T ->
  final (run (memcpy_in t) m) = {| seq := seq m; data := t |} /\
  trace (run_in env j (memcpy_in t) m) = memcpy_in_events t /\
  loaded (trace (run_in env j (memcpy_in t) m)) = [] /\
  seq_stores (trace (run_in env j (memcpy_in t) m)) = 0%nat /\
  defined (run_in env j (memcpy_in t) m) = true.
Proof.
  intros Hm Ht. rewrite memcpy_in_trace. split_and!.
  - by apply memcpy_in_alone.
  - done.
  - unfold memcpy_in_events. rewrite loaded_app.
    assert (forall mo f bs, loaded (store_events mo f bs) = []) as Hs.
    { intros mo f bs. revert f. induction bs as [|b bs IH]; intros f; [done|].
      rewrite store_events_cons. cbn. apply IH. }
    rewrite Hs. by destruct CRILL_BYTEWISE_ATOMIC_MEMCPY_AVAILABLE.
  - unfold memcpy_in_events. rewrite seq_stores_app, seq_stores_store_events.
    by destruct CRILL_BYTEWISE_ATOMIC_MEMCPY_AVAILABLE.
  - apply memcpy_in_defined.
Qed.

Lemma last_stored_cons o ops (v : T) :
  last_stored (o :: ops) v =
  last_stored ops (match o with OpStore t => t | _ => v end).
Proof. done. Qed.

Lemma after_register ops :
  forall m,
    stable m -> 0 <= seq m <= SIZE_MAX -> Forall operation_wf ops ->
    data (after ops m) = last_stored ops (data m) /\
    seq (after ops m) = wrap (seq m + 2 * Z.of_nat (count_stores ops)).
Proof.
  induction ops as [|o ops IH]; intros m Hm Hseq Hops.
  - cbn. by rewrite Z.add_0_r, wrap_small.
  - apply Forall_cons in Hops as [Ho Hops].
    change (after (o :: ops) m) with (after ops (apply_operation m o)).
    rewrite last_stored_cons.
    destruct o as [t|fuel t|t]; unfold apply_operation, operation_wf in *.
    + destruct (IH (final (run (store t) m))) as [Hd Hs];
        [by apply store_stable| |done|].
      { destruct Hm as [_ Hm]. rewrite store_alone by done. apply wrap_range. }
      rewrite Hd, Hs. destruct Hm as [_ Hm]. rewrite store_alone by done.
      cbn [seq data]. split; [done|].
      rewrite wrap_plus_wrap. f_equal.
      change (count_stores (OpStore t :: ops)) with (S (count_stores ops)).
      lia.
    + unfold load. rewrite load_in_final_alone by done. by apply IH.
    + unfold run. rewrite try_load_final_alone by done. by apply IH.
Qed.

(** X4: With no concurrent operation the object is a register on the
    side of the writer.  After construction and any sequence of completed
    calls of [store], [load] and [try_load], the storage holds the argument
    of the last [store], or the constructor's value when there was none, and
    the counter is twice the number of calls of [store], the constructor's
    included, in [size_t] arithmetic. *)
Theorem sequential_register (garbage : list byte) (v0 : T)
    (ops : list operation) :
  length garbage = sizeof_T -> length v0 = sizeof_T ->
  Forall operation_wf ops ->
  let m := after ops (seqlock_object_value garbage v0) in
  data m = last_stored ops v0 /\
  seq m = wrap (2 + 2 * Z.of_nat (count_stores ops)).
Proof.
  intros Hg Hv Hops. cbn zeta.
  pose proof (constructed_stable garbage v0 Hg Hv) as Hs.
  assert (seqlock_object_value garbage v0 = {| seq := 2; data := v0 |}) as Hm0
    by (unfold seqlock_object_value; by rewrite fresh_store).
  destruct (after_register ops _ Hs) as [Hd Hseq]; [|done|].
  { rewrite Hm0. cbn. unfold SIZE_MAX, size_t_bits. lia. }
  rewrite Hd, Hseq. by rewrite Hm0.
Qed.

(** *** The writer does not wait for the reader *)

Lemma writer_view_reader_step a :
  writer_view (points_step a Reader) = writer_view a.
Proof.
  destruct (reader_step_frame a) as (Hobj & Hw & Htodo & _).
  unfold writer_view. by rewrite Hobj, Hw, Htodo.
Qed.

Lemma writer_view_writer_step a b :
  writer_view a = writer_view b ->
  writer_view (points_step a Writer) = writer_view (points_step b Writer).
Proof.
  destruct a as [m w todo r obs], b as [m' w' todo' r' obs'].
  unfold writer_view. cbn. intros [= <- <- <-].
  destruct w as [|t|t old|t old|t old i [|c]]; cbn; try done.
  by destruct todo.
Qed.

Lemma writer_view_run sched :
  forall a b,
    writer_view a = writer_view b ->
    writer_view (points_run sched a) =
    writer_view (points_run (writer_part sched) b).
Proof.
  induction sched as [|who sched IH]; intros a b Hab; [done|].
  destruct who; cbn [writer_part List.filter is_writer].
  - change (points_run (Writer :: ?l) ?x)
      with (points_run l (points_step x Writer)).
    fold (writer_part sched). by apply IH, writer_view_writer_step.
  - change (points_run (Reader :: ?l) ?x)
      with (points_run l (points_step x Reader)).
    fold (writer_part sched). apply IH. by rewrite writer_view_reader_step.
Qed.

Lemma writer_part_repeat sched :
  writer_part sched = repeat Writer (length (writer_part sched)).
Proof.
  induction sched as [|[] sched IH]; cbn; [done| |done]. by f_equal.
Qed.

Lemma writer_idle_stays n m r obs :
  points_run (repeat Writer n) (mk_points m WIdle [] r obs) =
  mk_points m WIdle [] r obs.
Proof. induction n as [|n IH]; [done|]. exact IH. Qed.

(** X6: The reader cannot delay or disturb the writer.  In every run of
    the two-thread system the object and the writer are, after any
    schedule, exactly where the writer's own steps of that schedule take
    them with the reader never scheduled. *)
Theorem reader_never_disturbs_writer (garbage : list byte) (v0 : T)
    (vals : list T) (sched : list thread_id) :
  let s := sys_run sched (sys_init garbage v0 vals) in
  let s' := sys_run (writer_part sched) (sys_init garbage v0 vals) in
  obj s = obj s' /\ wr s = wr s'.
Proof.
  cbn zeta. rewrite sys_init_at_points, !sys_run_at_points.
  pose proof (writer_view_run sched _ _
                (eq_refl (writer_view (points_init garbage v0 vals)))) as H.
  unfold writer_view in H. injection H as Hobj Hw Htodo.
  cbn. by rewrite Hobj, Hw, Htodo.
Qed.

(** X7: [store] is wait-free in the two-thread system.  Once the schedule
    has given the writer [store_cycle] steps for each of its [N] calls,
    however they are interleaved with the reader's steps, all the calls
    have returned: the storage holds the last value, the counter is
    [2 * (N + 1)] in [size_t] arithmetic, and the writer is idle. *)
Theorem stores_complete (garbage : list byte) (v0 : T) (vals : list T)
    (sched : list thread_id) :
  length garbage = sizeof_T -> length v0 = sizeof_T ->
  Forall (fun v : T => length v = sizeof_T) vals ->
  (store_cycle * length vals <= length (writer_part sched))%nat ->
  let s := sys_run sched (sys_init garbage v0 vals) in
  obj s = {| seq := wrap (2 + 2 * Z.of_nat (length vals));
             data := default v0 (last vals) |} /\
  wr s = mk_writer (Ret tt) [] /\
  pending_seq_stores s = 0%nat.
Proof.
  intros Hg Hv Hvals Hsteps. cbn zeta.
  rewrite sys_init_at_points, sys_run_at_points, pending_at_points.
  pose proof (writer_view_run sched _ _
                (eq_refl (writer_view (points_init garbage v0 vals)))) as H.
  rewrite writer_part_repeat in H.
  replace (length (writer_part sched))
    with (store_cycle * length vals +
          (length (writer_part sched) - store_cycle * length vals))%nat
    in H by lia.
  rewrite repeat_app, points_run_app in H.
  pose proof (writer_runs_all vals {| seq := 2; data := v0 |} []
                (RCall (uninit 0)) [] Hv) as Hall.
  rewrite app_nil_r in Hall.
  unfold points_init at 2 in H. unfold seqlock_object_value in H.
  rewrite fresh_store in H by done.
  rewrite Hall in H; [|cbn; unfold SIZE_MAX, size_t_bits; lia|done].
  rewrite writer_idle_stays in H. unfold writer_view in H.
  injection H as Hobj Hw Htodo. cbn [seq data] in Hobj.
  cbn. rewrite Hobj, Hw, Htodo. done.
Qed.

(** *** How the object changes from step to step *)

Lemma counter_inv_step a who : counter_inv a -> counter_inv (points_step a who).
Proof.
  destruct a as [m w todo r obs], who; unfold counter_inv; cbn.
  - destruct w as [|t|t old|t old|t old i [|c]]; cbn; try done.
    + by destruct todo.
    + by destruct CRILL_BYTEWISE_ATOMIC_MEMCPY_AVAILABLE.
  - by destruct r as [t|seq1 i [|c] t|seq1 t|[] t].
Qed.

Lemma counter_inv_run sched :
  forall a, counter_inv a -> counter_inv (points_run sched a).
Proof.
  induction sched as [|who sched IH]; intros a Ha; [done|].
  cbn. by apply IH, counter_inv_step.
Qed.

(** X11: In every run of the two-thread system, a step changes the storage
    only while the counter is odd, and then it is a step of the writer that
    leaves the counter alone; and a step either leaves the counter alone or
    adds 1 to it in [size_t] arithmetic. *)
Theorem storage_changes_only_while_odd (garbage : list byte) (v0 : T)
    (vals : list T) (sched : list thread_id) (who : thread_id) :
  let s := sys_run sched (sys_init garbage v0 vals) in
  let s' := sys_step s who in
  (data (obj s') <> data (obj s) ->
   Z.odd (seq (obj s)) = true /\ seq (obj s') = seq (obj s) /\ who = Writer) /\
  (seq (obj s') = seq (obj s) \/ seq (obj s') = wrap (seq (obj s) + 1)).
Proof.
  cbn zeta. rewrite sys_init_at_points, sys_run_at_points, sys_step_at_points.
  pose proof (parity_inv_run sched _ (parity_inv_init garbage v0 vals)) as Hp.
  assert (counter_inv (points_init garbage v0 vals)) as Hc0 by done.
  pose proof (counter_inv_run sched _ Hc0) as Hc.
  destruct (points_run sched _) as [m w todo r obs].
  unfold parity_inv in Hp. unfold counter_inv in Hc. cbn in Hp, Hc |- *.
  destruct who.
  - destruct w as [|t|t old|t old|t old i [|c]]; cbn.
    + destruct todo; cbn; split; (done || by left).
    + split; (done || by left).
    + subst old. split; [done|by right].
    + split; (done || by left).
    + split; [done|]. right. rewrite Hc, wrap_plus_wrap. f_equal. lia.
    + split; [|by left]. intros _. by destruct Hp as [_ ->].
  - destruct r as [t|seq1 i [|c] t|seq1 t|[] t]; cbn; split; (done || by left).
Qed.

End facts.

(** ** The theorems at the scenario of the specification *)

Example scenario_construct :
  seqlock_object_value 2 false stale v00 = obj00.
Proof. reflexivity. Qed.

(** What a build that carries on past the end of [memcpy_out] does at the
    scenario; the behaviour of these runs is not defined. *)
Example scenario_overlap :
  r_obs (rd (sys_run 2 false stale_locals overlapping_schedule
               (sys_init 2 false stale_locals stale v00 [v12; v34]))) =
  [v00; v12; v34].
Proof. vm_compute. reflexivity. Qed.

Example scenario_torn_copy_rejected :
  run_in writer_overlaps 0 (try_load 2 false stale) obj00 =
  mk_outcome (false, [Byte.x00; Byte.x02]) {| seq := 3; data := v12 |}
    [EvSeqLoad memory_order_acquire 2;
     EvDataLoad memory_order_relaxed 0 Byte.x00;
     EvDataLoad memory_order_relaxed 1 Byte.x02;
     EvFence memory_order_acquire;
     EvSeqLoad memory_order_relaxed 3]
    false.
Proof. vm_compute. reflexivity. Qed.

Lemma store_then_load_undefined_witness :
  stable 2 obj00 /\
  final (run (store 2 false v12) obj00) = {| seq := 4; data := v12 |} /\
  defined (load 2 false 1 stale (final (run (store 2 false v12) obj00))) =
    false.
Proof.
  assert (stable 2 obj00) as Hs by (split; reflexivity).
  pose proof (store_then_load_undefined 2 false obj00 v12 stale 0
                Hs eq_refl eq_refl) as (_ & Hf & Hu).
  split; [exact Hs|]. split; [exact Hf|exact Hu].
Defined.

Lemma store_steps_witness :
  0 <= seq obj00 /\ seq obj00 + 2 <= SIZE_MAX /\
  seq (final (run_in alone 0 (store 2 false v12) obj00)) = seq obj00 + 2.
Proof.
  assert (0 <= seq obj00) as H0 by (cbn; lia).
  assert (seq obj00 + 2 <= SIZE_MAX) as Hmax by (vm_compute; discriminate).
  split; [exact H0|]. split; [exact Hmax|].
  exact (proj1 (proj2 (proj2 (proj2 (proj2
           (store_steps 2 false alone 0 v12 obj00)))) H0 Hmax)).
Defined.

Lemma constructors_install_by_store_witness :
  length stale = 2%nat /\
  seqlock_object_default 2 false v00 stale = {| seq := 2; data := v00 |} /\
  seqlock_object_value 2 false stale v12 = {| seq := 2; data := v12 |} /\
  defined (load 2 false 1 stale (seqlock_object_value 2 false stale v12)) =
    false.
Proof.
  pose proof (constructors_install_by_store 2 false v00 stale v12 stale 0
                eq_refl eq_refl eq_refl eq_refl)
    as (Hd & Hv & _ & _ & _ & _ & Hu).
  split; [reflexivity|]. split; [exact Hd|]. split; [exact Hv|exact Hu].
Defined.

Lemma store_twice_same_value_witness :
  stable 2 obj00 /\
  let m2 := final (run (store 2 false v12)
                     (final (run (store 2 false v12) obj00))) in
  seq m2 = wrap (seq obj00 + 4) /\
  data m2 = v12 /\
  defined (load 2 false 1 stale m2) = false.
Proof.
  assert (stable 2 obj00) as Hs by (split; reflexivity).
  pose proof (store_twice_same_value 2 false obj00 v12 stale 0
                Hs eq_refl eq_refl) as H.
  split; [exact Hs|]. cbv zeta in H |- *.
  destruct H as (_ & _ & Hseq & _ & Hdata & _ & Hu).
  split; [exact Hseq|]. split; [exact Hdata|exact Hu].
Defined.

Lemma try_load_output_slot_witness :
  length stale = 2%nat /\
  seq (drift writer_overlaps 0 0 obj00) mod 2 = 0 /\
  defined (run_in writer_overlaps 0 (try_load 2 false stale) obj00) = false.
Proof.
  assert (seq (drift writer_overlaps 0 0 obj00) mod 2 = 0) as He
    by reflexivity.
  split; [reflexivity|]. split; [exact He|].
  exact (proj2 (proj2 (try_load_output_slot 2 false writer_overlaps 0 stale
                         obj00 eq_refl)) He).
Defined.

Lemma try_load_protocol_witness :
  length stale = 2%nat /\
  pending_seq_stores
    (sys_run 2 false stale_locals writer_paused
       (sys_init 2 false stale_locals stale v00 [v12; v34])) = 1%nat /\
  result (run (try_load 2 false stale)
            (obj (sys_run 2 false stale_locals writer_paused
                    (sys_init 2 false stale_locals stale v00
                       [v12; v34])))) = (false, stale) /\
  seq (drift alone 0 0 obj00) mod 2 = 0 /\
  defined (run_in alone 0 (try_load 2 false stale) obj00) = false.
Proof.
  assert (pending_seq_stores
            (sys_run 2 false stale_locals writer_paused
               (sys_init 2 false stale_locals stale v00 [v12; v34])) = 1%nat)
    as Hp by reflexivity.
  assert (seq (drift alone 0 0 obj00) mod 2 = 0) as He by reflexivity.
  pose proof (try_load_protocol 2 false stale_locals alone 0 stale obj00
                eq_refl) as (_ & _ & Heven & Hpaused).
  split; [reflexivity|]. split; [exact Hp|]. split.
  - rewrite (Hpaused stale v00 [v12; v34] writer_paused Hp). reflexivity.
  - split; [exact He|exact (Heven He)].
Defined.

Lemma memcpy_out_flows_off_end_witness :
  defined (run_in alone 0 (memcpy_out 2 false stale) obj00) = false /\
  defined (run_in alone 0 (try_load 2 false stale) obj00) = false /\
  defined (run_in alone 0 (try_load 2 false stale)
             {| seq := 3; data := v12 |}) = true.
Proof.
  pose proof (memcpy_out_flows_off_end 2 false alone 0 stale obj00)
    as [Hout Heven].
  pose proof (memcpy_out_flows_off_end 2 false alone 0 stale
                {| seq := 3; data := v12 |}) as [_ Hodd].
  split; [exact Hout|]. split; [exact (proj1 (proj2 Heven))|exact (proj1 Hodd)].
Defined.

Lemma no_torn_read_without_wraparound_witness :
  Z.of_nat (length [v12; v34]) < 2 ^ 63 /\
  exists js : list nat,
    r_obs (rd (sys_run 2 false stale_locals overlapping_schedule
                 (sys_init 2 false stale_locals stale v00 [v12; v34]))) =
    map (fun j => (v00 :: [v12; v34]) !!! j) js /\
    Forall (fun j => j <= length [v12; v34])%nat js /\
    StronglySorted le js /\
    Forall (fun v => v ∈ v00 :: [v12; v34])
      (r_obs (rd (sys_run 2 false stale_locals overlapping_schedule
                    (sys_init 2 false stale_locals stale v00 [v12; v34])))).
Proof.
  assert (Z.of_nat (length [v12; v34]) < 2 ^ 63) as Hb by reflexivity.
  split; [exact Hb|].
  apply (no_torn_read_without_wraparound 2 false stale_locals stale v00
           [v12; v34] overlapping_schedule eq_refl eq_refl).
  - repeat constructor.
  - intros i. reflexivity.
  - exact Hb.
Defined.

Lemma reader_values_only_after_fall_off_witness :
  r_obs (rd (sys_run 2 false stale_locals overlapping_schedule
               (sys_init 2 false stale_locals stale v00 [v12; v34]))) <> [] /\
  exists pre post,
    overlapping_schedule = pre ++ Reader :: post /\
    reader_flows_off
      (sys_run 2 false stale_locals pre
         (sys_init 2 false stale_locals stale v00 [v12; v34])) = true /\
    r_obs (rd (sys_run 2 false stale_locals pre
                 (sys_init 2 false stale_locals stale v00 [v12; v34]))) = [].
Proof.
  assert (r_obs (rd (sys_run 2 false stale_locals overlapping_schedule
                       (sys_init 2 false stale_locals stale v00 [v12; v34])))
          <> []) as Hobs by (vm_compute; discriminate).
  split; [exact Hobs|].
  exact (reader_values_only_after_fall_off 2 false stale_locals stale v00
           [v12; v34] overlapping_schedule Hobs).
Defined.

Lemma seq_even_iff_no_write_in_progress_witness :
  Forall (operation_wf 2) [OpStore v12; OpLoad 1 stale; OpTryLoad stale] /\
  Z.even (seq (after 2 false [OpStore v12; OpLoad 1 stale; OpTryLoad stale]
                 (seqlock_object_value 2 false stale v00))) = true /\
  fst (result (run_in alone 0 (try_load 2 false stale) obj00)) = true /\
  Z.even (seq (drift alone 0 0 obj00)) = true.
Proof.
  assert (Forall (operation_wf 2)
            [OpStore v12; OpLoad 1 stale; OpTryLoad stale]) as Hops
    by (repeat constructor).
  assert (fst (result (run_in alone 0 (try_load 2 false stale) obj00)) = true)
    as Hok by reflexivity.
  pose proof (seq_even_iff_no_write_in_progress 2 false v00 stale_locals)
    as (Hafter & _ & Htry).
  split; [exact Hops|]. split.
  - exact (proj1 (Hafter stale v00 _ eq_refl eq_refl eq_refl Hops)).
  - split; [exact Hok|].
    exact (proj1 (Htry alone 0%nat stale obj00 eq_refl Hok)).
Defined.

Lemma load_flows_off_end_witness :
  stable 2 obj00 /\
  defined (load 2 false 3 stale obj00) = false /\
  result (load_in 2 false 3 writer_completes 0 stale obj00) =
    (Some v12, 2%nat) /\
  defined (load_in 2 false 3 writer_completes 0 stale obj00) = false /\
  Z.odd (seq {| seq := 3; data := v12 |}) = true /\
  result (load 2 false 5 stale {| seq := 3; data := v12 |}) = (None, 5%nat).
Proof.
  assert (stable 2 obj00) as Hs by (split; reflexivity).
  assert (result (load_in 2 false 3 writer_completes 0 stale obj00) =
          (Some v12, 2%nat)) as Hres by reflexivity.
  pose proof (load_flows_off_end 2 false) as (Hquiet & Hvalue & Hodd).
  split; [exact Hs|]. split; [exact (Hquiet 2%nat stale obj00 eq_refl Hs)|].
  split; [exact Hres|].
  split; [exact (Hvalue 3%nat writer_completes 0%nat stale obj00 v12 2%nat
                   eq_refl Hres)|].
  split; [reflexivity|].
  rewrite (Hodd 5%nat stale {| seq := 3; data := v12 |} eq_refl). reflexivity.
Defined.

(** ** The counter wrapping around under a single call of [load] *)

Lemma tagged_length tag z : length (tagged tag z) = 65%nat.
Proof. unfold tagged. cbn [length]. by rewrite length_map, length_seq. Qed.

Lemma tagged_inj tag tag' a b :
  0 <= a < 2 ^ 64 -> 0 <= b < 2 ^ 64 ->
  tagged tag a = tagged tag' b -> tag = tag' /\ a = b.
Proof.
  intros Ha Hb Heq.
  assert (tag = tag') as Htag
    by exact (f_equal (fun l : T => default tag (head l)) Heq).
  assert (map (fun i => bit_byte (Z.testbit a (Z.of_nat i))) (List.seq 0 64) =
          map (fun i => bit_byte (Z.testbit b (Z.of_nat i))) (List.seq 0 64))
    as Hbits by exact (f_equal (fun l : T => tail l) Heq).
  clear Heq. split; [done|].
  apply Z.bits_inj'. intros n Hn.
  destruct (Z_lt_ge_dec n 64) as [Hlt|Hge].
  - pose proof (proj1 map_ext_in_iff Hbits (Z.to_nat n)) as Hin.
    cbv beta in Hin. rewrite Z2Nat.id in Hin by done.
    assert (In (Z.to_nat n) (List.seq 0 64)) as Hmem by (apply in_seq; lia).
    specialize (Hin Hmem).
    by destruct (Z.testbit a n), (Z.testbit b n).
  - rewrite <- (Z.mod_small a (2 ^ 64)), <- (Z.mod_small b (2 ^ 64)) by done.
    by rewrite !Z.mod_pow2_bits_high by lia.
Qed.

Lemma wrap_vals_length : Z.of_nat (length wrap_vals) = 2 ^ 63.
Proof.
  unfold wrap_vals. rewrite length_fmap, length_seqZ. by apply Z2Nat.id.
Qed.

Lemma wrap_vals_sizes : Forall (fun v : T => length v = 65%nat) wrap_vals.
Proof.
  unfold wrap_vals. apply Forall_fmap, Forall_true. intros z.
  apply tagged_length.
Qed.

Lemma seqZ_last (n : Z) : 0 < n -> last (seqZ 1 n) = Some n.
Proof.
  intros Hn.
  replace n with (Z.of_nat (S (Z.to_nat (n - 1)))) at 1 by lia.
  rewrite seqZ_S, last_snoc. f_equal. lia.
Qed.

Lemma wrap_vals_last : last wrap_vals = Some (tagged Byte.x00 (2 ^ 63)).
Proof.
  unfold wrap_vals. rewrite fmap_last, seqZ_last by reflexivity. reflexivity.
Qed.

Lemma wrap_vals_distinct : NoDup (wrap_init :: wrap_vals).
Proof.
  apply NoDup_cons. split.
  - unfold wrap_vals. intros (z & Hz & _)%list_elem_of_fmap.
    unfold wrap_init, tagged in Hz. discriminate Hz.
  - unfold wrap_vals. apply NoDup_fmap_2_strong; [|apply NoDup_seqZ].
    intros a b Ha%elem_of_seqZ Hb%elem_of_seqZ Heq.
    eapply tagged_inj; [| |exact Heq]; lia.
Qed.

Lemma wrap_mixture_fresh : wrap_mixture ∉ wrap_init :: wrap_vals.
Proof.
  apply not_elem_of_cons. split.
  - unfold wrap_mixture, wrap_init. intros Heq.
    apply tagged_inj in Heq as [_ Heq]; [discriminate Heq|lia|lia].
  - unfold wrap_vals. intros (z & Hz & _)%list_elem_of_fmap.
    unfold wrap_mixture, tagged in Hz. discriminate Hz.
Qed.

Lemma obs_at_points n b a :
  r_obs (rd (at_points n b a)) = p_obs a.
Proof. reflexivity. Qed.

(** The run, for any list of 2^63 values that ends with the number 2^63
    under tag 0. *)
Lemma wraparound_run (garbage : list byte) (vals : list T) :
  length garbage = 65%nat ->
  Forall (fun v : T => length v = 65%nat) vals ->
  Z.of_nat (length vals) = 2 ^ 63 ->
  last vals = Some (tagged Byte.x00 (2 ^ 63)) ->
  p_obs (points_run 65 true wrap_locals (wrap_schedule_for vals)
           (points_init 65 true wrap_locals garbage wrap_init vals)) =
  [wrap_mixture].
Proof.
  intros Hg Hvals Hlen Hlast. unfold wrap_schedule_for.
  rewrite !points_run_app.
  assert (points_run 65 true wrap_locals [Reader; Reader]
            (points_init 65 true wrap_locals garbage wrap_init vals) =
          mk_points {| seq := 2; data := wrap_init |} WIdle (vals ++ [])
            (RCopy 2 1 64 (Byte.x01 :: replicate 64 Byte.x00)) []) as ->.
  { rewrite app_nil_r. unfold points_init, seqlock_object_value.
    rewrite fresh_store by done. reflexivity. }
  rewrite writer_runs_all; [|done|done|done].
  cbn [seq data]. rewrite Hlen, Hlast. cbn [default].
  vm_compute. reflexivity.
Qed.

(** For a build that carries on past the end of [memcpy_out]: with 2^63
    calls of [store] the reader obtains a value that is none of the values
    stored, the first byte of the initial value followed by the other bytes
    of the last value stored.  The writer's calls, with distinct values, lie
    between two byte loads of one call of [try_load], and bring the 64-bit
    counter back to the value that the call had loaded. *)
Lemma torn_read_after_wraparound :
  Z.of_nat (length wrap_vals) = 2 ^ 63 /\
  NoDup (wrap_init :: wrap_vals) /\
  Forall (fun v : T => length v = 65%nat) (wrap_init :: wrap_vals) /\
  r_obs (rd (sys_run 65 true wrap_locals wrap_schedule
               (sys_init 65 true wrap_locals (replicate 65 Byte.x00)
                  wrap_init wrap_vals))) = [wrap_mixture] /\
  wrap_mixture ∉ wrap_init :: wrap_vals.
Proof.
  split; [exact wrap_vals_length|].
  split; [exact wrap_vals_distinct|].
  split; [constructor; [apply tagged_length|exact wrap_vals_sizes]|].
  split; [|exact wrap_mixture_fresh].
  rewrite sys_init_at_points, sys_run_at_points, obs_at_points.
  apply wraparound_run.
  - apply length_replicate.
  - exact wrap_vals_sizes.
  - exact wrap_vals_length.
  - exact wrap_vals_last.
Qed.

(** ** The further theorems at the scenario of the specification *)

Lemma load_ignores_uninitialised_local_witness :
  length stale = 2%nat /\ length v34 = 2%nat /\
  load_in 2 false 3 writer_overlaps 0 stale obj00 =
  load_in 2 false 3 writer_overlaps 0 v34 obj00.
Proof.
  split; [reflexivity|]. split; [reflexivity|].
  exact (load_ignores_uninitialised_local 2 false 3 writer_overlaps 0 stale v34
           obj00 eq_refl eq_refl).
Defined.

Lemma store_is_wait_free_witness :
  length (trace (run_in writer_overlaps 0 (store 2 false stale) obj00)) = 6%nat /\
  defined (run_in writer_overlaps 0 (store 2 false stale) obj00) = true.
Proof.
  pose proof (store_is_wait_free 2 false writer_overlaps 0 stale obj00)
    as (Hstore & _ & Hdef).
  split; [exact Hstore|exact Hdef].
Defined.

Lemma loads_never_write_witness :
  length stale = 2%nat /\
  writes (trace (load_in 2 false 3 writer_overlaps 0 stale obj00)) = 0%nat /\
  final (load 2 false 3 stale obj00) = obj00.
Proof.
  pose proof (loads_never_write 2 false 3 writer_overlaps 0 stale obj00 eq_refl)
    as (_ & _ & Hw & _ & _).
  pose proof (loads_never_write 2 false 3 alone 0 stale obj00 eq_refl)
    as (_ & _ & _ & _ & Hf).
  split; [reflexivity|]. split; [exact Hw|exact Hf].
Defined.

Lemma sequential_register_witness :
  Forall (operation_wf 2) [OpStore v12; OpLoad 1 stale; OpStore v34;
                           OpTryLoad stale] /\
  after 2 false [OpStore v12; OpLoad 1 stale; OpStore v34; OpTryLoad stale]
    (seqlock_object_value 2 false stale v00) = {| seq := 6; data := v34 |}.
Proof.
  assert (Forall (operation_wf 2)
            [OpStore v12; OpLoad 1 stale; OpStore v34; OpTryLoad stale])
    as Hops by (repeat constructor).
  split; [exact Hops|].
  pose proof (sequential_register 2 false stale v00 _ eq_refl eq_refl Hops)
    as [Hd Hs].
  destruct (after 2 false _ _) as [s d]. cbn [seq data] in Hd, Hs.
  rewrite Hd, Hs. reflexivity.
Defined.

Lemma stores_complete_witness :
  (store_cycle 2 false * length [v12; v34] <=
   length (writer_part overlapping_schedule))%nat /\
  obj (sys_run 2 false stale_locals overlapping_schedule
         (sys_init 2 false stale_locals stale v00 [v12; v34])) =
  {| seq := wrap (2 + 2 * Z.of_nat (length [v12; v34]));
     data := default v00 (last [v12; v34]) |}.
Proof.
  assert (store_cycle 2 false * length [v12; v34] <=
          length (writer_part overlapping_schedule))%nat as Hsteps
    by (vm_compute; lia).
  split; [exact Hsteps|].
  refine (proj1 (stores_complete 2 false stale_locals stale v00 [v12; v34]
                   overlapping_schedule eq_refl eq_refl _ Hsteps)).
  repeat constructor.
Defined.

Lemma memcpy_in_overwrites_storage_witness :
  length (data obj00) = 2%nat /\
  final (run (memcpy_in 2 false v12) obj00) = {| seq := 2; data := v12 |}.
Proof.
  split; [reflexivity|].
  exact (proj1 (memcpy_in_overwrites_storage 2 false alone 0 obj00 v12
                  eq_refl eq_refl)).
Defined.

Lemma accesses_in_bounds_witness :
  length stale = 2%nat /\
  Forall (in_bounds 2)
    (trace (load_in 2 false 3 writer_overlaps 0 stale obj00)).
Proof.
  split; [reflexivity|].
  exact (proj2 (proj2 (accesses_in_bounds 2 false 3 writer_overlaps 0 stale
                         obj00 eq_refl))).
Defined.
